(** * model_view: the model / preset state manager of [src/main.js]

    A shallow embedding of the viewer's mutable state (the globals
    [scene], [currentModel], [gui]), of the functions [loadModel],
    [applyPreset] and [createGUI], and of the events that drive them: the
    completion callbacks of [GLTFLoader.load] and the change callbacks of
    the lil-gui controllers.

    JavaScript numbers are IEEE binary64 values, taken here as Rocq's
    primitive floats.  The program only ever copies them, so equality of
    transforms is equality of the stored values. *)

From Stdlib Require Import Floats.PrimFloat.
From stdpp Require Import base option list strings.

Set Warnings "-inexact-float".
Local Open Scope string_scope.
Local Open Scope list_scope.
Local Open Scope nat_scope.

(** ** Data *)

(** A JavaScript object literal with string keys: an association list in
    source order, because [Object.keys] (and [find] over it) observes the
    order.  [get] is own-property lookup, [None] standing for [undefined];
    the keys inherited from [Object.prototype] are outside the model, and
    every theorem below looks up names of the catalogs only. *)
Definition obj (V : Type) : Type := list (string * V).

Fixpoint get {V} (key : string) (o : obj V) : option V :=
  match o with
  | [] => None
  | (k, v) :: o' => if String.eqb key k then Some v else get key o'
  end.

Definition keys {V} (o : obj V) : list string := map fst o.

Global Arguments get : simpl never.
Global Arguments keys : simpl never.

(** The [{x, y, z}] triples of the presets, of [Vector3] and of [Euler]
    (whose rotation order this program never changes). *)
Record Vec3 : Type := vec3 { x : float; y : float; z : float }.

(** One entry of [modelPresets]; also the value a displayed model's
    transform is compared with. *)
Record Transform : Type := mkTransform {
  position : Vec3;
  scale : Vec3;
  rotation : Vec3
}.

Definition modelFiles : obj string :=
  [ ("Regular Hand", "/hand_model.glb");
    ("Skeleton Hand", "/skeleton_hand.glb") ].

Definition modelPresets : obj (obj Transform) :=
  [ ("Regular Hand",
      [ ("Default",
          {| position := vec3 (-10) (-20) (-7);
             scale := vec3 1 1 1;
             rotation := vec3 (-1.02) (-1.06) 0.07 |});
        ("Palm View",
          {| position := vec3 1 39 (-6);
             scale := vec3 1.2 1.2 1.2;
             rotation := vec3 4.41 1.72 0.07 |});
        ("Side View",
          {| position := vec3 (-31) 23 12;
             scale := vec3 1.2 1.2 1.2;
             rotation := vec3 4.95 (-5.81) (-6.34) |}) ]);
    ("Skeleton Hand",
      [ ("Default",
          {| position := vec3 10 30 8;
             scale := vec3 1.1 1.1 1.1;
             rotation := vec3 (-0.7) (-6.2) (-3.2) |});
        ("Palm View",
          {| position := vec3 (-11) (-9) 11;
             scale := vec3 1.1 1.1 1.1;
             rotation := vec3 3.8 3.1 3.1 |});
        ("Wrist View",
          {| position := vec3 12 4 4;
             scale := vec3 1.1 1.1 1.1;
             rotation := vec3 3.1 1.8 (-1.6) |}) ]) ]%float.

(** A loaded [gltf.scene]: the three transform fields the program writes,
    and (as a label only, never read by the program) the path it was
    loaded from. *)
Record Object3D : Type := mkObject3D {
  asset : option string;
  transform : Transform
}.

(** What [scene.children] holds: the five fixtures [init] adds, and the
    loaded models, by reference into the heap of objects. *)
Inductive Child : Type :=
  | AmbientLight | DirectionalLight | Stage | GridHelper | AxesHelper
  | Model (ref : nat).

Global Instance Child_eq_dec : EqDecision Child.
Proof. solve_decision. Defined.

Inductive Key : Type := kx | ky | kz.

(** The controllers [createGUI] adds to a panel, in the order it adds
    them.  A selector carries its current value and its options; the view
    selector also carries the [currentModelName] its callback closes over;
    a number field carries the object whose property it is bound to (the
    [currentModel] of the moment the panel was built) and its range. *)
Inductive Controller : Type :=
  | ModelSelector (model : option string) (options : list string)
  | ViewSelector (view : string) (options : list string)
                 (currentModelName : string)
  | PositionField (target : nat) (k : Key) (min max step : float)
  | RotationField (target : nat) (k : Key) (min max step : float)
  | ScaleField (target : nat) (min max step : float).

Record GUI : Type := mkGUI {
  title : string;
  controllers : list Controller;
  destroyed : bool
}.

Inductive Log : Type :=
  | ConsoleError (message : string) (error : string)
  | UncaughtTypeError.

(** The program state: the heap of model objects and of panels ever
    constructed, the scene's children, the two globals the functions below
    read and write, the loads issued and not yet completed (each is the
    [modelPath] its two callbacks close over), and the console. *)
Record State : Type := mkState {
  objects : list Object3D;
  panels : list GUI;
  scene : list Child;
  currentModel : option nat;
  gui : option nat;
  loading : list (option string);
  console : list Log
}.

(** ** Field updates *)

Definition with_position (p : Vec3) (t : Transform) : Transform :=
  {| position := p; scale := scale t; rotation := rotation t |}.
Definition with_rotation (r : Vec3) (t : Transform) : Transform :=
  {| position := position t; scale := scale t; rotation := r |}.
Definition with_scale (s : Vec3) (t : Transform) : Transform :=
  {| position := position t; scale := s; rotation := rotation t |}.

(** [w.x = v], [w.y = v] or [w.z = v]. *)
Definition assign (k : Key) (v : float) (w : Vec3) : Vec3 :=
  match k with
  | kx => vec3 v (y w) (z w)
  | ky => vec3 (x w) v (z w)
  | kz => vec3 (x w) (y w) v
  end.

Definition on_transform (f : Transform → Transform) (o : Object3D) : Object3D :=
  {| asset := asset o; transform := f (transform o) |}.

Definition with_objects (f : list Object3D → list Object3D) (st : State) : State :=
  {| objects := f (objects st); panels := panels st; scene := scene st;
     currentModel := currentModel st; gui := gui st;
     loading := loading st; console := console st |}.
Definition with_panels (f : list GUI → list GUI) (st : State) : State :=
  {| objects := objects st; panels := f (panels st); scene := scene st;
     currentModel := currentModel st; gui := gui st;
     loading := loading st; console := console st |}.
Definition with_scene (f : list Child → list Child) (st : State) : State :=
  {| objects := objects st; panels := panels st; scene := f (scene st);
     currentModel := currentModel st; gui := gui st;
     loading := loading st; console := console st |}.
Definition with_currentModel (m : option nat) (st : State) : State :=
  {| objects := objects st; panels := panels st; scene := scene st;
     currentModel := m; gui := gui st;
     loading := loading st; console := console st |}.
Definition with_gui (g : option nat) (st : State) : State :=
  {| objects := objects st; panels := panels st; scene := scene st;
     currentModel := currentModel st; gui := g;
     loading := loading st; console := console st |}.
Definition with_loading (f : list (option string) → list (option string))
    (st : State) : State :=
  {| objects := objects st; panels := panels st; scene := scene st;
     currentModel := currentModel st; gui := gui st;
     loading := f (loading st); console := console st |}.
Definition log (e : Log) (st : State) : State :=
  {| objects := objects st; panels := panels st; scene := scene st;
     currentModel := currentModel st; gui := gui st;
     loading := loading st; console := console st ++ [e] |}.

(** ** The rendering engine's scene graph (three.js)

    [scene.remove(o)] splices the first occurrence of [o] out of
    [scene.children], if there is one; [scene.add(o)] detaches [o] from
    its parent (here: the one scene) and pushes it. *)

Fixpoint splice_out (c : Child) (l : list Child) : list Child :=
  match l with
  | [] => []
  | c' :: l' => if decide (c = c') then l' else c' :: splice_out c l'
  end.

Definition scene_remove (ref : nat) (st : State) : State :=
  with_scene (splice_out (Model ref)) st.

Definition scene_add (ref : nat) (st : State) : State :=
  with_scene (λ l, splice_out (Model ref) l ++ [Model ref]) st.

(** [o.position.set(a, b, c)], [o.rotation.set(a, b, c)] and
    [o.scale.set(a, b, c)] on the object [ref] refers to. *)
Definition position_set (ref : nat) (a b c : float) (st : State) : State :=
  with_objects (alter (on_transform (with_position (vec3 a b c))) ref) st.
Definition rotation_set (ref : nat) (a b c : float) (st : State) : State :=
  with_objects (alter (on_transform (with_rotation (vec3 a b c))) ref) st.
Definition scale_set (ref : nat) (a b c : float) (st : State) : State :=
  with_objects (alter (on_transform (with_scale (vec3 a b c))) ref) st.

(** ** The control panel (lil-gui)

    [new GUI(...)] allocates a panel with no controller; [gui.add]
    appends one; [gui.destroy()] takes the panel off the page and destroys
    its controllers. *)

Definition new_GUI (t : string) (st : State) : nat * State :=
  (length (panels st),
   with_panels
     (λ ps, ps ++ [{| title := t; controllers := []; destroyed := false |}]) st).

Definition gui_add (g : nat) (c : Controller) (st : State) : State :=
  with_panels (alter (λ p, {| title := title p;
                              controllers := controllers p ++ [c];
                              destroyed := destroyed p |}) g) st.

Definition gui_destroy (g : nat) (st : State) : State :=
  with_panels (alter (λ p, {| title := title p; controllers := [];
                              destroyed := true |}) g) st.

(** ** The functions of [src/main.js] *)

(** [modelPresets[modelName]], then [[presetName]] of it, with the guard's
    reading of [undefined] on the way. *)
Definition lookupPreset (modelName : option string) (presetName : string)
    : option Transform :=
  name ← modelName; presets ← get name modelPresets; get presetName presets.

Definition applyPreset (modelName : option string) (presetName : string)
    (st : State) : State :=
  match currentModel st, lookupPreset modelName presetName with
  | Some cm, Some preset =>
      let st := position_set cm (x (position preset)) (y (position preset))
                  (z (position preset)) st in
      let st := rotation_set cm (x (rotation preset)) (y (rotation preset))
                  (z (rotation preset)) st in
      scale_set cm (x (scale preset)) (y (scale preset)) (z (scale preset)) st
  | _, _ => st
  end.

(** [createGUI].  Reading [Object.keys] of [undefined], or a property of an
    undefined [currentModel], throws a [TypeError]: the function stops
    there, leaving the panel as far as it was built.  Its only caller
    calls it last, so stopping is all the exception does, apart from
    being reported. *)
Definition createGUI (currentModelName : option string) (st : State) : State :=
  let st := match gui st with Some g => gui_destroy g st | None => st end in
  let '(g, st) := new_GUI "Model Controls" st in
  let st := with_gui (Some g) st in
  let st := gui_add g (ModelSelector currentModelName (keys modelFiles)) st in
  match currentModelName, currentModelName ≫= (λ n, get n modelPresets) with
  | Some name, Some presets =>
      let presetOptions := keys presets in
      let st := gui_add g (ViewSelector "Default" presetOptions name) st in
      match currentModel st with
      | Some cm =>
          let st := gui_add g (PositionField cm kx (-1000) 1000 1) st in
          let st := gui_add g (PositionField cm ky (-1000) 1000 1) st in
          let st := gui_add g (PositionField cm kz (-1000) 1000 1) st in
          let st := gui_add g (RotationField cm kx (-10) 10 0.1) st in
          let st := gui_add g (RotationField cm ky (-10) 10 0.1) st in
          let st := gui_add g (RotationField cm kz (-10) 10 0.1) st in
          gui_add g (ScaleField cm 0.1 5 0.1) st
      | None => log UncaughtTypeError st
      end
  | _, _ => log UncaughtTypeError st
  end.

(** [loadModel]: the synchronous part.  The current model, if any, leaves
    the scene at once; the load is then outstanding until the loader calls
    one of the two callbacks. *)
Definition loadModel (modelPath : option string) (st : State) : State :=
  let st := match currentModel st with
            | Some cm => scene_remove cm st
            | None => st
            end in
  with_loading (λ l, l ++ [modelPath]) st.

(** The success callback of [loadModel]; [gltf_scene] is the reference of
    the freshly built object the loader hands over. *)
Definition onLoad (modelPath : option string) (gltf_scene : nat)
    (st : State) : State :=
  let st := with_currentModel (Some gltf_scene) st in
  let st := scene_add gltf_scene st in
  let modelName :=
    find (λ key, bool_decide (get key modelFiles = modelPath))
         (keys modelFiles) in
  let st := applyPreset modelName "Default" st in
  createGUI modelName st.

(** The error callback of [loadModel]. *)
Definition onError (error : string) (st : State) : State :=
  log (ConsoleError "Error loading model:" error) st.

(** [init], as far as the state above goes: the five fixtures enter the
    scene and the first load is issued. *)
Definition init : State :=
  loadModel (get "Regular Hand" modelFiles)
    {| objects := []; panels := [];
       scene := [AmbientLight; DirectionalLight; Stage; GridHelper; AxesHelper];
       currentModel := None; gui := None; loading := []; console := [] |}.

(** ** Events

    What happens to the program after [init]: the loader completes an
    outstanding load, with a new object (whose transform is whatever the
    asset file says) or with an error; the user changes a controller of the
    panel.  An event is a delivery: the controller stores the value and
    calls its [onChange], if it has one.  A selector offers its options
    only, and a controller that is not on the page receives nothing: such
    events leave the state as it is.  A number field delivers the value
    [v] it settled on, after whatever rounding and clamping the panel
    library does. *)
Inductive Event : Type :=
  | LoadSucceeds (k : nat) (root : Transform)
  | LoadFails (k : nat) (error : string)
  | SelectModel (modelName : string)
  | SelectPreset (presetName : string)
  | EditPosition (k : Key) (v : float)
  | EditRotation (k : Key) (v : float)
  | EditScale (v : float).

Global Instance Key_eq_dec : EqDecision Key.
Proof. solve_decision. Defined.

(** The panel on the page: the one the global [gui] refers to. *)
Definition panel (st : State) : option (nat * GUI) :=
  g ← gui st; p ← panels st !! g; Some (g, p).

Definition modelSelector (p : GUI) : option (list string) :=
  head (omap (λ c, match c with
                   | ModelSelector _ options => Some options
                   | _ => None
                   end) (controllers p)).

Definition viewSelector (p : GUI) : option (list string * string) :=
  head (omap (λ c, match c with
                   | ViewSelector _ options name => Some (options, name)
                   | _ => None
                   end) (controllers p)).

Definition positionField (k : Key) (p : GUI) : option nat :=
  head (omap (λ c, match c with
                   | PositionField target k' _ _ _ =>
                       if decide (k = k') then Some target else None
                   | _ => None
                   end) (controllers p)).

Definition rotationField (k : Key) (p : GUI) : option nat :=
  head (omap (λ c, match c with
                   | RotationField target k' _ _ _ =>
                       if decide (k = k') then Some target else None
                   | _ => None
                   end) (controllers p)).

Definition scaleField (p : GUI) : option nat :=
  head (omap (λ c, match c with
                   | ScaleField target _ _ _ => Some target
                   | _ => None
                   end) (controllers p)).

(** A selector stores the chosen value before it calls [onChange]. *)
Definition setValue (g : nat) (f : Controller → Controller) (st : State)
    : State :=
  with_panels (alter (λ p, {| title := title p;
                              controllers := f <$> controllers p;
                              destroyed := destroyed p |}) g) st.

Definition chooseModel (v : string) (c : Controller) : Controller :=
  match c with
  | ModelSelector _ options => ModelSelector (Some v) options
  | _ => c
  end.

Definition chooseView (v : string) (c : Controller) : Controller :=
  match c with
  | ViewSelector _ options name => ViewSelector v options name
  | _ => c
  end.

(** The model selector's [onChange]: [loadModel(modelFiles[modelName])]. *)
Definition selectModel (modelName : string) (st : State) : State :=
  match panel st with
  | Some (g, p) =>
      match modelSelector p with
      | Some options =>
          if bool_decide (modelName ∈ options)
          then loadModel (get modelName modelFiles)
                 (setValue g (chooseModel modelName) st)
          else st
      | None => st
      end
  | None => st
  end.

(** The view selector's [onChange]:
    [applyPreset(currentModelName, presetName)]. *)
Definition selectPreset (presetName : string) (st : State) : State :=
  match panel st with
  | Some (g, p) =>
      match viewSelector p with
      | Some (options, currentModelName) =>
          if bool_decide (presetName ∈ options)
          then applyPreset (Some currentModelName) presetName
                 (setValue g (chooseView presetName) st)
          else st
      | None => st
      end
  | None => st
  end.

(** The position and rotation fields have no [onChange]: the controller
    writes [v] into the property it is bound to. *)
Definition editPosition (k : Key) (v : float) (st : State) : State :=
  match panel st with
  | Some (_, p) =>
      match positionField k p with
      | Some target =>
          with_objects
            (alter (on_transform (λ t, with_position (assign k v (position t)) t))
                   target) st
      | None => st
      end
  | None => st
  end.

Definition editRotation (k : Key) (v : float) (st : State) : State :=
  match panel st with
  | Some (_, p) =>
      match rotationField k p with
      | Some target =>
          with_objects
            (alter (on_transform (λ t, with_rotation (assign k v (rotation t)) t))
                   target) st
      | None => st
      end
  | None => st
  end.

(** The scale field writes [v] into [scale.x] of the object it is bound
    to, then its [onChange] runs [currentModel.scale.set(v, v, v)] on
    whatever the global [currentModel] is by then. *)
Definition editScale (v : float) (st : State) : State :=
  match panel st with
  | Some (_, p) =>
      match scaleField p with
      | Some target =>
          let st :=
            with_objects
              (alter (on_transform (λ t, with_scale (assign kx v (scale t)) t))
                     target) st in
          match currentModel st with
          | Some cm => scale_set cm v v v st
          | None => log UncaughtTypeError st
          end
      | None => st
      end
  | None => st
  end.

(** The loader completes the [k]-th outstanding load with a new object. *)
Definition loadSucceeds (k : nat) (root : Transform) (st : State) : State :=
  match loading st !! k with
  | Some modelPath =>
      let gltf_scene := length (objects st) in
      let st := with_loading (delete k) st in
      let st := with_objects
                  (λ os, os ++ [{| asset := modelPath; transform := root |}]) st in
      onLoad modelPath gltf_scene st
  | None => st
  end.

(** The loader gives up on the [k]-th outstanding load. *)
Definition loadFails (k : nat) (error : string) (st : State) : State :=
  match loading st !! k with
  | Some _ => onError error (with_loading (delete k) st)
  | None => st
  end.

Definition step (st : State) (e : Event) : State :=
  match e with
  | LoadSucceeds k root => loadSucceeds k root st
  | LoadFails k error => loadFails k error st
  | SelectModel modelName => selectModel modelName st
  | SelectPreset presetName => selectPreset presetName st
  | EditPosition k v => editPosition k v st
  | EditRotation k v => editRotation k v st
  | EditScale v => editScale v st
  end.

Definition run (es : list Event) (st : State) : State := foldl step st es.

(** The states the program can be in. *)
Definition reachable (st : State) : Prop := ∃ es, st = run es init.

(** ** Observations *)

(** The object the global [currentModel] refers to. *)
Definition displayed (st : State) : option Object3D :=
  cm ← currentModel st; objects st !! cm.

(** The models among the scene's children. *)
Definition modelsInScene (st : State) : list nat :=
  omap (λ c, match c with Model ref => Some ref | _ => None end) (scene st).

(** The panels on the page. *)
Definition livePanels (st : State) : list GUI :=
  filter (λ p, destroyed p = false) (panels st).

(** The transform of an object nothing has written to yet; the examples
    below let the loader hand over such objects. *)
Definition identity : Transform :=
  {| position := vec3 0 0 0; scale := vec3 1 1 1; rotation := vec3 0 0 0 |}.

(** The name, in the asset catalog, of the model [currentModel] refers to:
    the name [onLoad] found for it. *)
Definition displayedName (st : State) : option string :=
  o ← displayed st;
  find (λ key, bool_decide (get key modelFiles = asset o)) (keys modelFiles).

(** ** Vocabulary of the proofs *)

(** The panels after [if (gui) gui.destroy()]. *)
Definition destroyOld (st : State) : list GUI :=
  match gui st with
  | Some g => alter (λ p, {| title := title p; controllers := [];
                             destroyed := true |}) g (panels st)
  | None => panels st
  end.

(** The controllers of a panel [createGUI] has built to the end. *)
Definition built (cm : nat) (model : option string) (view : string)
    (name : string) (presets : obj Transform) : list Controller :=
  [ ModelSelector model (keys modelFiles);
    ViewSelector view (keys presets) name;
    PositionField cm kx (-1000) 1000 1;
    PositionField cm ky (-1000) 1000 1;
    PositionField cm kz (-1000) 1000 1;
    RotationField cm kx (-10) 10 0.1;
    RotationField cm ky (-10) 10 0.1;
    RotationField cm kz (-10) 10 0.1;
    ScaleField cm 0.1 5 0.1 ].

Global Arguments built : simpl never.

(** What [applyPreset] does to the object it writes to. *)
Definition place (preset : Transform) (o : Object3D) : Object3D :=
  on_transform (with_scale (vec3 (x (scale preset)) (y (scale preset))
                                 (z (scale preset))))
    (on_transform (with_rotation (vec3 (x (rotation preset)) (y (rotation preset))
                                       (z (rotation preset))))
       (on_transform (with_position (vec3 (x (position preset))
                                          (y (position preset))
                                          (z (position preset)))) o)).

(** A path [loadModel] is called with: [modelFiles[name]] for a name of
    the asset catalog. *)
Definition catalogPath (path : option string) : Prop :=
  ∃ name, name ∈ keys modelFiles ∧ path = get name modelFiles.

(** Panel rebuilds in a row, one for each name. *)
Definition rebuilds (names : list (option string)) (st : State) : State :=
  foldl (λ st name, createGUI name st) st names.

(** Two states used as examples below: the Regular Hand displayed after
    the first load; and, from there, "Skeleton Hand" chosen and then
    "Regular Hand" again, both loads outstanding. *)
Definition regularShown : State := run [LoadSucceeds 0 identity] init.

Definition twoRequests : State :=
  run [SelectModel "Skeleton Hand"; SelectModel "Regular Hand"] regularShown.

(** ** Well-formed states

    What holds of every state the program reaches: references are not
    dangling, a current model comes with a panel, the scene lists no child
    twice, the only panel not destroyed is the one [gui] refers to, that
    panel was built to the end for the current model, and every
    outstanding load is for a path of the asset catalog. *)

(** No panel but the one [gui] refers to is on the page. *)
Definition onlyGui (st : State) : Prop :=
  ∀ i p, panels st !! i = Some p → destroyed p = false → gui st = Some i.

Record wf (st : State) : Prop := {
  wf_current : ∀ cm, currentModel st = Some cm → cm < length (objects st);
  wf_shown : is_Some (currentModel st) → is_Some (gui st);
  wf_scene : NoDup (scene st);
  wf_live : onlyGui st;
  wf_gui : ∀ g, gui st = Some g →
    ∃ cm model view name presets,
      currentModel st = Some cm
      ∧ get name modelPresets = Some presets
      ∧ panels st !! g
        = Some {| title := "Model Controls";
                  controllers := built cm model view name presets;
                  destroyed := false |};
  wf_loading : Forall catalogPath (loading st)
}.

(** ** Vocabulary of the further properties *)

(** What a panel offers and where its fields write: everything about it
    but the values its two selectors hold. *)
Definition wiring (p : GUI) :=
  (destroyed p, modelSelector p, viewSelector p,
   (positionField kx p, positionField ky p, positionField kz p),
   (rotationField kx p, rotationField ky p, rotationField kz p),
   scaleField p).

(** What [applyPreset] writes, on the transform alone. *)
Definition settle (preset : Transform) (t : Transform) : Transform :=
  with_scale (vec3 (x (scale preset)) (y (scale preset)) (z (scale preset)))
    (with_rotation (vec3 (x (rotation preset)) (y (rotation preset))
                         (z (rotation preset)))
       (with_position (vec3 (x (position preset)) (y (position preset))
                            (z (position preset))) t)).

(** What an event of the panel can do to a state whose current model is
    [cm]: write to the transform of [cm]; store a selector's value; and,
    for the model selector, take [cm] out of the scene and issue a load. *)
Record userChange (cm : nat) (st st' : State) : Prop := {
  uc_objects : ∃ f, objects st' = alter (on_transform f) cm (objects st);
  uc_panels : wiring <$> panels st' = wiring <$> panels st;
  uc_currentModel : currentModel st' = currentModel st;
  uc_gui : gui st' = gui st;
  uc_console : console st' = console st;
  uc_scene_loading :
    (scene st' = scene st ∧ loading st' = loading st)
    ∨ (∃ X, X ∈ keys modelFiles
            ∧ scene st' = splice_out (Model cm) (scene st)
            ∧ loading st' = loading st ++ [get X modelFiles])
}.

(** The events of the loader, as opposed to those of the panel. *)
Definition ofLoader (e : Event) : bool :=
  match e with
  | LoadSucceeds _ _ | LoadFails _ _ => true
  | _ => false
  end.

(** The child of the scene is one of the fixtures [init] put there. *)
Definition fixture (c : Child) : Prop :=
  match c with Model _ => False | _ => True end.

Global Instance fixture_dec c : Decision (fixture c).
Proof. destruct c; simpl; apply _. Defined.

(** The index of the last element. *)
Definition lastIndex {A} (l : list A) : option nat :=
  match length l with 0 => None | S n => Some n end.

(** An entry of the console written by the error callback of [loadModel]. *)
Definition loadError (e : Log) : Prop :=
  ∃ error, e = ConsoleError "Error loading model:" error.

(** [w.x], [w.y] or [w.z]. *)
Definition component (k : Key) (w : Vec3) : float :=
  match k with kx => x w | ky => y w | kz => z w end.

(** The three components are one number. *)
Definition uniform (w : Vec3) : Prop := x w = y w ∧ y w = z w.

(** The first load has failed. *)
Definition firstLoadFailed : State := step init (LoadFails 0 "not found").

(** Both loads of [twoRequests] have succeeded, the second one first. *)
Definition bothLoaded : State :=
  run [LoadSucceeds 1 identity; LoadSucceeds 0 identity] twoRequests.

(** "Skeleton Hand" was chosen while "Regular Hand" was displayed, and the
    load has failed. *)
Definition switchFailed : State :=
  run [SelectModel "Skeleton Hand"; LoadFails 0 "not found"] regularShown.

(** * Proofs *)

(** ** Lists, the scene graph and the panel: basic facts *)

Section ListFacts.
Context {A : Type}.
Implicit Types (l : list A) (f : A → A).

Lemma alter_last f l a : alter f (length l) (l ++ [a]) = l ++ [f a].
Proof.
  replace (length l) with (length l + 0) by lia.
  by rewrite alter_app_r.
Qed.

Lemma lookup_last l a : (l ++ [a]) !! length l = Some a.
Proof. by apply list_lookup_middle. Qed.

Lemma alter_idemp f l i :
  (∀ a, f (f a) = f a) → alter f i (alter f i l) = alter f i l.
Proof.
  intros Hf. revert i. induction l as [|a l IH]; intros [|i]; simpl; try done.
  - by rewrite Hf.
  - f_equal. apply IH.
Qed.
End ListFacts.

Lemma splice_out_elem c c' l : c' ∈ splice_out c l → c' ∈ l.
Proof.
  induction l as [|d l IH]; simpl; [done|].
  case_decide; rewrite !elem_of_cons; tauto.
Qed.

Lemma splice_out_NoDup c l : NoDup l → NoDup (splice_out c l).
Proof.
  induction 1 as [|d l Hd Hl IH]; simpl; [constructor|].
  case_decide; [done|]. constructor; [|done].
  intros Hin. by apply Hd, (splice_out_elem c).
Qed.

Lemma splice_out_gone c l : NoDup l → c ∉ splice_out c l.
Proof.
  induction 1 as [|d l Hd Hl IH]; simpl; [by intros ?%elem_of_nil|].
  case_decide; [by subst|]. rewrite elem_of_cons. intros [?|?]; auto.
Qed.

Lemma elem_of_modelsInScene ref st :
  ref ∈ modelsInScene st ↔ Model ref ∈ scene st.
Proof.
  unfold modelsInScene. rewrite list_elem_of_omap. split.
  - intros (c & Hc & Heq). destruct c; naive_solver.
  - intros Hin. by exists (Model ref).
Qed.

Lemma length_destroyOld st : length (destroyOld st) = length (panels st).
Proof. unfold destroyOld. destruct (gui st); [apply length_alter|done]. Qed.

(** [createGUI], case by case. *)
Local Ltac createGUI_cases name st :=
  unfold createGUI, destroyOld, new_GUI;
  destruct (gui st) eqn:?; simpl;
  (destruct name; simpl;
   [ match goal with
     | |- context [get ?n modelPresets] => destruct (get n modelPresets)
     end; simpl;
     [ destruct (currentModel st) eqn:?; simpl | ] | ]).

Section CreateGUI.
Variables (name : option string) (st : State).

Lemma createGUI_objects : objects (createGUI name st) = objects st.
Proof. createGUI_cases name st; done. Qed.

Lemma createGUI_scene : scene (createGUI name st) = scene st.
Proof. createGUI_cases name st; done. Qed.

Lemma createGUI_currentModel :
  currentModel (createGUI name st) = currentModel st.
Proof. createGUI_cases name st; done. Qed.

Lemma createGUI_loading : loading (createGUI name st) = loading st.
Proof. createGUI_cases name st; done. Qed.

Lemma createGUI_gui : gui (createGUI name st) = Some (length (panels st)).
Proof. createGUI_cases name st; by rewrite ?length_alter. Qed.

(** Whatever happens later in [createGUI], the old panel is destroyed
    and one new panel, not destroyed, is appended. *)
Lemma createGUI_panels :
  ∃ cs, panels (createGUI name st)
        = destroyOld st ++ [{| title := "Model Controls"; controllers := cs;
                               destroyed := false |}].
Proof.
  createGUI_cases name st; repeat (rewrite alter_last; simpl); eauto.
Qed.
End CreateGUI.

(** With a current model and a name of the preset catalog, [createGUI]
    runs to its end. *)
Lemma createGUI_built n presets cm st :
  get n modelPresets = Some presets →
  currentModel st = Some cm →
  panels (createGUI (Some n) st)
  = destroyOld st ++ [{| title := "Model Controls";
                         controllers := built cm (Some n) "Default" n presets;
                         destroyed := false |}]
  ∧ console (createGUI (Some n) st) = console st.
Proof.
  intros Hn Hcm. unfold createGUI, destroyOld, new_GUI.
  destruct (gui st); simpl; rewrite Hn; simpl; rewrite Hcm; simpl;
    repeat (rewrite alter_last; simpl); done.
Qed.

(** ** [applyPreset] *)

Lemma place_eq preset o :
  place preset o = {| asset := asset o; transform := preset |}.
Proof. by destruct preset as [[] [] []]. Qed.

Lemma alter_alter {A} (f g : A → A) (l : list A) i :
  alter f i (alter g i l) = alter (f ∘ g) i l.
Proof.
  revert i. induction l as [|a l IH]; intros [|i]; simpl; try done.
  f_equal. apply IH.
Qed.

Lemma applyPreset_hit modelName presetName st cm preset :
  currentModel st = Some cm →
  lookupPreset modelName presetName = Some preset →
  applyPreset modelName presetName st
  = with_objects (alter (place preset) cm) st.
Proof.
  intros Hcm Hp. unfold applyPreset. rewrite Hcm, Hp.
  unfold scale_set, rotation_set, position_set, with_objects; simpl.
  by rewrite !alter_alter.
Qed.

Lemma applyPreset_miss modelName presetName st :
  currentModel st = None ∨ lookupPreset modelName presetName = None →
  applyPreset modelName presetName st = st.
Proof.
  unfold applyPreset. intros [-> | ->]; [done|]. by destruct (currentModel st).
Qed.

(** Either way it touches nothing but the objects, and none but the
    current one. *)
Lemma applyPreset_with_objects modelName presetName st :
  ∃ f, (∀ l, length (f l) = length l)
       ∧ applyPreset modelName presetName st = with_objects f st.
Proof.
  destruct (currentModel st) as [cm|] eqn:Hcm,
           (lookupPreset modelName presetName) as [preset|] eqn:Hp.
  - exists (alter (place preset) cm). split; [intros; apply length_alter|].
    by apply applyPreset_hit.
  - exists id. split; [done|]. rewrite applyPreset_miss by auto. by destruct st.
  - exists id. split; [done|]. rewrite applyPreset_miss by auto. by destruct st.
  - exists id. split; [done|]. rewrite applyPreset_miss by auto. by destruct st.
Qed.

(** ** The catalogs *)

Lemma catalog_name name :
  name ∈ keys modelFiles → name = "Regular Hand" ∨ name = "Skeleton Hand".
Proof.
  unfold keys; simpl. rewrite !elem_of_cons, elem_of_nil. tauto.
Qed.

(** Paths are distinct, so the name [onLoad] finds is the one asked for;
    and each model of the asset catalog has its presets, Default among
    them. *)
Lemma catalog_find name :
  name ∈ keys modelFiles →
  find (λ key, bool_decide (get key modelFiles = get name modelFiles))
       (keys modelFiles) = Some name
  ∧ is_Some (get name modelPresets)
  ∧ is_Some (lookupPreset (Some name) "Default").
Proof. intros [-> | ->]%catalog_name; vm_compute; eauto. Qed.

Lemma wf_init : wf init.
Proof.
  split; simpl; try done.
  - repeat constructor; rewrite ?elem_of_cons, ?elem_of_nil;
      intuition discriminate.
  - repeat constructor. exists "Regular Hand". split; [|done].
    unfold keys; simpl. apply elem_of_cons; auto.
Qed.

Lemma wf_with_objects f st :
  (∀ l, length (f l) = length l) → wf st → wf (with_objects f st).
Proof.
  intros Hf [H1 H0 H2 H3 H4 H5]. split; simpl; try done.
  intros cm Hcm. rewrite Hf. auto.
Qed.

Lemma wf_with_loading f st :
  (∀ l, Forall catalogPath l → Forall catalogPath (f l)) →
  wf st → wf (with_loading f st).
Proof. intros Hf [H1 H0 H2 H3 H4 H5]. split; simpl; auto. Qed.

Lemma wf_log e st : wf st → wf (log e st).
Proof. by intros [H1 H0 H2 H3 H4 H5]. Qed.

Lemma wf_scene_remove ref st : wf st → wf (scene_remove ref st).
Proof.
  intros [H1 H0 H2 H3 H4 H5]. split; simpl; try done.
  by apply splice_out_NoDup.
Qed.

Lemma wf_applyPreset modelName presetName st :
  wf st → wf (applyPreset modelName presetName st).
Proof.
  destruct (applyPreset_with_objects modelName presetName st) as (f & Hf & ->).
  by apply wf_with_objects.
Qed.

Lemma wf_loadModel path st : catalogPath path → wf st → wf (loadModel path st).
Proof.
  intros Hpath Hst. unfold loadModel.
  apply wf_with_loading.
  - intros l Hl. apply Forall_app. split; [done|]. by constructor.
  - destruct (currentModel st); [by apply wf_scene_remove|done].
Qed.

(** A selector that stores a new value leaves a built panel built. *)
Lemma wf_setValue g f st :
  (∀ cm model view name presets, ∃ model' view',
      f <$> built cm model view name presets
      = built cm model' view' name presets) →
  wf st → wf (setValue g f st).
Proof.
  intros Hf [H1 H0 H2 H3 H4 H5]. split; simpl; try done.
  - intros i p; simpl. rewrite list_lookup_alter. case_decide as Hi.
    + subst i. destruct (panels st !! g) as [q|] eqn:Hq; simpl; [|done].
      intros [= <-]; simpl. by apply H3.
    + apply H3.
  - intros g' Hg'. destruct (H4 g' Hg') as (cm & m & v & n & ps & Hcm & Hn & Hp).
    destruct (Hf cm m v n ps) as (m' & v' & Heq).
    rewrite list_lookup_alter. case_decide as Hi.
    + subst g'. rewrite Hp. exists cm, m', v', n, ps. by rewrite <- Heq.
    + by exists cm, m, v, n, ps.
Qed.

Lemma wf_panel st g p :
  wf st → panel st = Some (g, p) →
  ∃ cm model view name presets,
    currentModel st = Some cm
    ∧ cm < length (objects st)
    ∧ get name modelPresets = Some presets
    ∧ gui st = Some g
    ∧ panels st !! g = Some p
    ∧ p = {| title := "Model Controls";
             controllers := built cm model view name presets;
             destroyed := false |}.
Proof.
  intros Hst. unfold panel. destruct (gui st) as [g'|] eqn:Hg; simpl; [|done].
  destruct (wf_gui st Hst g' Hg) as (cm & m & v & n & ps & Hcm & Hn & Hp).
  rewrite Hp; simpl. intros [= <- <-].
  exists cm, m, v, n, ps. split_and!; try done. by apply (wf_current st Hst).
Qed.

Lemma wf_selectModel modelName st : wf st → wf (selectModel modelName st).
Proof.
  intros Hst. unfold selectModel.
  destruct (panel st) as [[g p]|] eqn:Hp; [|done].
  destruct (wf_panel st g p Hst Hp) as (cm & m & v & n & ps & _ & _ & _ & _ & _ & ->).
  simpl. case_bool_decide as Hin; [|done].
  apply wf_loadModel; [by exists modelName|].
  apply wf_setValue; [|done]. intros; unfold built; simpl; eauto.
Qed.

Lemma wf_selectPreset presetName st : wf st → wf (selectPreset presetName st).
Proof.
  intros Hst. unfold selectPreset.
  destruct (panel st) as [[g p]|] eqn:Hp; [|done].
  destruct (wf_panel st g p Hst Hp) as (cm & m & v & n & ps & _ & _ & _ & _ & _ & ->).
  simpl. case_bool_decide as Hin; [|done].
  apply wf_applyPreset, wf_setValue; [|done]. intros; unfold built; simpl; eauto.
Qed.

Lemma wf_editPosition k v st : wf st → wf (editPosition k v st).
Proof.
  intros Hst. unfold editPosition.
  destruct (panel st) as [[g p]|]; [|done].
  destruct (positionField k p); [|done].
  apply wf_with_objects; [|done]. intros; apply length_alter.
Qed.

Lemma wf_editRotation k v st : wf st → wf (editRotation k v st).
Proof.
  intros Hst. unfold editRotation.
  destruct (panel st) as [[g p]|]; [|done].
  destruct (rotationField k p); [|done].
  apply wf_with_objects; [|done]. intros; apply length_alter.
Qed.

Lemma wf_editScale v st : wf st → wf (editScale v st).
Proof.
  intros Hst. unfold editScale.
  destruct (panel st) as [[g p]|]; [|done].
  destruct (scaleField p); [|done]. simpl.
  destruct (currentModel st).
  - unfold scale_set. do 2 (apply wf_with_objects; [intros; apply length_alter|]).
    done.
  - apply wf_log, wf_with_objects; [|done]. intros; apply length_alter.
Qed.

Lemma wf_loadFails k error st : wf st → wf (loadFails k error st).
Proof.
  intros Hst. unfold loadFails, onError.
  destruct (loading st !! k); [|done].
  apply wf_log, wf_with_loading; [|done]. intros l. apply Forall_delete.
Qed.

(** The state after the success callback, for a load of a model of the
    asset catalog: field by field. *)
Lemma loadSucceeds_catalog k root name st :
  name ∈ keys modelFiles →
  loading st !! k = Some (get name modelFiles) →
  ∃ presets preset,
    get name modelPresets = Some presets
    ∧ get "Default" presets = Some preset
    ∧ let st' := loadSucceeds k root st in
      objects st' = objects st ++ [{| asset := get name modelFiles;
                                      transform := preset |}]
      ∧ currentModel st' = Some (length (objects st))
      ∧ scene st' = splice_out (Model (length (objects st))) (scene st)
                    ++ [Model (length (objects st))]
      ∧ gui st' = Some (length (panels st))
      ∧ panels st' = destroyOld st
                     ++ [{| title := "Model Controls";
                            controllers := built (length (objects st)) (Some name)
                                             "Default" name presets;
                            destroyed := false |}]
      ∧ loading st' = delete k (loading st)
      ∧ console st' = console st.
Proof.
  intros Hin Hk.
  destruct (catalog_find name Hin) as (Hfind & [presets Hps] & [preset Hdef]).
  exists presets, preset. split; [done|].
  split; [by unfold lookupPreset in Hdef; simpl in Hdef; rewrite Hps in Hdef|].
  unfold loadSucceeds, onLoad. rewrite Hk, Hfind.
  erewrite applyPreset_hit; [|done..].
  destruct (createGUI_built name presets (length (objects st))
    (with_objects (alter (place preset) (length (objects st)))
       (scene_add (length (objects st))
          (with_currentModel (Some (length (objects st)))
             (with_objects
                (λ os, os ++ [{| asset := get name modelFiles; transform := root |}])
                (with_loading (delete k) st)))))) as [Hpanels Hconsole]; [done..|].
  simpl. rewrite createGUI_objects, createGUI_currentModel, createGUI_scene,
    createGUI_gui, createGUI_loading, Hpanels, Hconsole. simpl.
  split_and!; try done.
  by rewrite alter_last, place_eq.
Qed.

Lemma destroyOld_dead st i p :
  onlyGui st → destroyOld st !! i = Some p → destroyed p = true.
Proof.
  intros Hst. unfold destroyOld. destruct (gui st) as [g|] eqn:Hg.
  - rewrite list_lookup_alter. case_decide as Hi.
    + destruct (panels st !! g); simpl; [|done]. by intros [= <-].
    + intros Hp. destruct (destroyed p) eqn:Hd; [done|].
      pose proof (Hst i p Hp Hd). congruence.
  - intros Hp. destruct (destroyed p) eqn:Hd; [done|].
    pose proof (Hst i p Hp Hd). congruence.
Qed.

Lemma wf_loadSucceeds k root st : wf st → wf (loadSucceeds k root st).
Proof.
  intros Hst.
  destruct (loading st !! k) as [path|] eqn:Hk;
    [|by unfold loadSucceeds; rewrite Hk].
  pose proof (wf_loading st Hst) as Hl.
  rewrite Forall_lookup in Hl. destruct (Hl k path Hk) as (name & Hin & ->).
  destruct (loadSucceeds_catalog k root name st Hin Hk)
    as (presets & preset & Hps & Hdef & Ho & Hcm & Hsc & Hg & Hp & Hld & _).
  split.
  - intros cm. rewrite Hcm, Ho, length_app. intros [= <-]. simpl. lia.
  - by rewrite Hg.
  - rewrite Hsc. apply NoDup_app. split_and!.
    + apply splice_out_NoDup, (wf_scene st Hst).
    + intros c Hc ->%list_elem_of_singleton.
      by eapply splice_out_gone, Hc; apply (wf_scene st Hst).
    + apply NoDup_singleton.
  - intros i p. rewrite Hp, Hg. intros Hi Hd.
    destruct (decide (i < length (destroyOld st))) as [Hlt|Hge].
    + rewrite lookup_app_l in Hi by done.
      pose proof (destroyOld_dead st i p (wf_live st Hst) Hi). congruence.
    + apply lookup_lt_Some in Hi. rewrite length_app in Hi; simpl in Hi.
      rewrite length_destroyOld in *. f_equal. lia.
  - intros g. rewrite Hg, Hcm, Hp. intros [= <-].
    exists (length (objects st)), (Some name), "Default", name, presets.
    split_and!; try done. rewrite <- length_destroyOld. apply lookup_last.
  - rewrite Hld. apply Forall_delete, (wf_loading st Hst).
Qed.

Create HintDb wf.
#[local] Hint Resolve wf_loadSucceeds wf_loadFails wf_selectModel
  wf_selectPreset wf_editPosition wf_editRotation wf_editScale : wf.

Lemma wf_step st e : wf st → wf (step st e).
Proof. destruct e; simpl; auto with wf. Qed.

Lemma wf_run es st : wf st → wf (run es st).
Proof.
  revert st. induction es as [|e es IH]; intros st Hst; simpl; [done|].
  apply IH, wf_step, Hst.
Qed.

Lemma reachable_wf st : reachable st → wf st.
Proof. intros [es ->]. apply wf_run, wf_init. Qed.

Lemma reachable_init : reachable init.
Proof. by exists []. Qed.

(** The state right after the success callback of a load of [name]. *)
Lemma displayed_loadSucceeds k root name st :
  name ∈ keys modelFiles →
  loading st !! k = Some (get name modelFiles) →
  ∃ preset,
    lookupPreset (Some name) "Default" = Some preset
    ∧ displayed (loadSucceeds k root st)
      = Some {| asset := get name modelFiles; transform := preset |}
    ∧ displayedName (loadSucceeds k root st) = Some name.
Proof.
  intros Hin Hk.
  destruct (loadSucceeds_catalog k root name st Hin Hk)
    as (presets & preset & Hps & Hdef & Ho & Hcm & _).
  assert (displayed (loadSucceeds k root st)
          = Some {| asset := get name modelFiles; transform := preset |}) as Hd.
  { unfold displayed. rewrite Hcm, Ho; simpl. apply lookup_last. }
  exists preset. split_and!; [|done|].
  - unfold lookupPreset; simpl. by rewrite Hps.
  - unfold displayedName. rewrite Hd; simpl. by apply catalog_find.
Qed.

Lemma regular_hand_in_catalog : "Regular Hand" ∈ keys modelFiles.
Proof. apply list_elem_of_here. Qed.

Lemma skeleton_hand_in_catalog : "Skeleton Hand" ∈ keys modelFiles.
Proof. apply list_elem_of_further, list_elem_of_here. Qed.

(** In a reachable state without a current model there is no panel. *)
Lemma empty_no_panel st :
  reachable st → currentModel st = None → panel st = None.
Proof.
  intros Hst%reachable_wf Hcm. unfold panel.
  destruct (gui st) as [g|] eqn:Hg; [|done].
  destruct (wf_gui st Hst g Hg) as (cm & _ & _ & _ & _ & Hcm' & _). congruence.
Qed.


(** ** Panels on the page *)

Lemma filter_all_dead (l : list GUI) :
  (∀ i p, l !! i = Some p → destroyed p = true) →
  filter (λ p, destroyed p = false) l = [].
Proof.
  induction l as [|q l IH]; intros Hl; [done|].
  rewrite filter_cons. pose proof (Hl 0 q eq_refl) as Hq.
  case_decide; [congruence|]. apply IH. intros i p. apply (Hl (S i)).
Qed.

(** With no panel on the page but [gui]'s, at most one is. *)
Lemma onlyGui_at_most_one st : onlyGui st → length (livePanels st) ≤ 1.
Proof.
  unfold onlyGui, livePanels. generalize (gui st) as og.
  induction (panels st) as [|q l IH]; intros og Hl; [simpl; lia|].
  rewrite filter_cons. case_decide as Hq.
  - rewrite filter_all_dead; [simpl; lia|].
    intros i p Hp. destruct (destroyed p) eqn:Hd; [done|].
    pose proof (Hl 0 q eq_refl Hq). pose proof (Hl (S i) p Hp Hd). congruence.
  - apply (IH (pred <$> og)). intros i p Hp Hd.
    by rewrite (Hl (S i) p Hp Hd).
Qed.

(** [createGUI], whatever the name, and whether or not it runs to its
    end: the panels there were are all destroyed, and the new one is the
    only one on the page. *)
Lemma createGUI_one_live name st :
  onlyGui st →
  onlyGui (createGUI name st)
  ∧ ∃ p, livePanels (createGUI name st) = [p]
         ∧ destroyed p = false
         ∧ panel (createGUI name st) = Some (length (panels st), p).
Proof.
  intros Hst. destruct (createGUI_panels name st) as [cs Hcs].
  pose proof (createGUI_gui name st) as Hg. split.
  - intros i p. rewrite Hcs, Hg. intros Hi Hd.
    destruct (decide (i < length (destroyOld st))) as [Hlt|Hge].
    + rewrite lookup_app_l in Hi by done.
      pose proof (destroyOld_dead st i p Hst Hi). congruence.
    + apply lookup_lt_Some in Hi. rewrite length_app in Hi; simpl in Hi.
      rewrite length_destroyOld in *. f_equal. lia.
  - eexists. split_and!.
    + unfold livePanels. rewrite Hcs, filter_app, filter_all_dead.
      * done.
      * intros i p. by apply destroyOld_dead.
    + done.
    + unfold panel. rewrite Hg, Hcs; simpl.
      by rewrite <- length_destroyOld, lookup_last.
Qed.

(** The panel [gui] referred to before [createGUI] is destroyed by it,
    controllers and all. *)
Lemma createGUI_destroys name st g :
  gui st = Some g → g < length (panels st) →
  ∃ p, panels (createGUI name st) !! g = Some p
       ∧ destroyed p = true ∧ controllers p = [].
Proof.
  intros Hg Hlt. destruct (createGUI_panels name st) as [cs ->].
  rewrite lookup_app_l by by rewrite length_destroyOld.
  unfold destroyOld. rewrite Hg, list_lookup_alter_eq.
  apply lookup_lt_is_Some in Hlt as [q ->]. simpl. eauto.
Qed.

Lemma rebuilds_one_live names st :
  onlyGui st → names ≠ [] →
  onlyGui (rebuilds names st) ∧ length (livePanels (rebuilds names st)) = 1.
Proof.
  intros Hst Hne. induction names as [|name names IH] using rev_ind; [done|].
  unfold rebuilds. rewrite foldl_snoc. fold (rebuilds names st).
  assert (onlyGui (rebuilds names st)) as Hmid.
  { destruct names; [done|]. by apply IH. }
  destruct (createGUI_one_live name _ Hmid) as (Hinv & p & -> & _).
  done.
Qed.

(** ** Choosing a model while one is displayed *)

(** The state right after the model selector's [onChange], before any
    completion: the current model has left the scene, the load is
    outstanding, and nothing else has moved but the selector's value. *)
Lemma selectModel_displaying st cm X :
  wf st → currentModel st = Some cm → X ∈ keys modelFiles →
  let st' := selectModel X st in
  objects st' = objects st
  ∧ currentModel st' = Some cm
  ∧ gui st' = gui st
  ∧ length (panels st') = length (panels st)
  ∧ scene st' = splice_out (Model cm) (scene st)
  ∧ loading st' = loading st ++ [get X modelFiles]
  ∧ console st' = console st.
Proof.
  intros Hst Hcm HX.
  destruct (wf_shown st Hst) as [g Hg]; [by eexists|].
  destruct (wf_gui st Hst g Hg) as (cm' & m & v & n & ps & _ & _ & Hp).
  unfold selectModel, panel. rewrite Hg; simpl. rewrite Hp; simpl.
  rewrite bool_decide_eq_true_2 by done.
  unfold loadModel; simpl. rewrite Hcm; simpl. rewrite length_alter.
  done.
Qed.

Lemma reachable_regularShown : reachable regularShown.
Proof. by exists [LoadSucceeds 0 identity]. Qed.

(** * The properties of the specification *)

(** ** C1: overlapping loads

    C1 as the specification states it (the model displayed in the end is
    the one requested last, whatever the order of completion) fails:
    "Regular Hand" is displayed, "Skeleton Hand" is chosen, then "Regular
    Hand" again before the first load is through; the second load
    completes, then the first.  Nothing is discarded: the last model
    requested is "Regular Hand", the model displayed in the end is
    "Skeleton Hand", and both are in the scene. *)
Lemma superseded_load_counterexample :
  loading twoRequests
  = [get "Skeleton Hand" modelFiles; get "Regular Hand" modelFiles]
  ∧ displayedName
      (run [LoadSucceeds 1 identity; LoadSucceeds 0 identity] twoRequests)
    = Some "Skeleton Hand"
  ∧ displayedName
      (run [LoadSucceeds 1 identity; LoadSucceeds 0 identity] twoRequests)
    ≠ Some "Regular Hand"
  ∧ modelsInScene
      (run [LoadSucceeds 1 identity; LoadSucceeds 0 identity] twoRequests)
    = [1; 2]
  ∧ loading
      (run [LoadSucceeds 1 identity; LoadSucceeds 0 identity] twoRequests)
    = [].
Proof. vm_compute. split_and!; done. Qed.

(** C1, as the code has it.  With a model displayed, [A] is chosen and
    then [B] before [A]'s load completes.  Each load that succeeds makes
    its model the displayed one, so the model displayed once both have
    succeeded is that of the load that completed last: [B] when the loads
    complete in the order they were requested, [A] when they complete in
    the other order. *)
Theorem last_completed_load_is_displayed (st : State) (A B : string)
    (rootA rootB : Transform) :
  reachable st → is_Some (currentModel st) →
  A ∈ keys modelFiles → B ∈ keys modelFiles →
  let requested := run [SelectModel A; SelectModel B] st in
  let a := length (loading st) in
  loading requested = loading st ++ [get A modelFiles; get B modelFiles]
  ∧ displayedName (run [LoadSucceeds a rootA; LoadSucceeds a rootB] requested)
    = Some B
  ∧ displayedName (run [LoadSucceeds (S a) rootB; LoadSucceeds a rootA] requested)
    = Some A.
Proof.
  intros Hst%reachable_wf [cm Hcm] HA HB. simpl.
  destruct (selectModel_displaying st cm A Hst Hcm HA)
    as (_ & Hcm1 & _ & _ & _ & Hl1 & _).
  pose proof (wf_selectModel A st Hst) as Hst1.
  destruct (selectModel_displaying _ cm B Hst1 Hcm1 HB)
    as (_ & _ & _ & _ & _ & Hl2 & _).
  rewrite Hl1, <- app_assoc in Hl2; simpl in Hl2.
  set (st2 := selectModel B (selectModel A st)) in *.
  assert (loading st2 !! length (loading st) = Some (get A modelFiles)) as HlA.
  { rewrite Hl2. by apply list_lookup_middle. }
  assert (loading st2 !! S (length (loading st)) = Some (get B modelFiles)) as HlB.
  { rewrite Hl2, lookup_app_r by lia.
    by replace (S (length (loading st)) - length (loading st)) with 1 by lia. }
  split_and!; [done| |].
  - destruct (loadSucceeds_catalog _ rootA A st2 HA HlA)
      as (_ & _ & _ & _ & _ & _ & _ & _ & _ & Hl3 & _).
    destruct (displayed_loadSucceeds (length (loading st)) rootB B
                (loadSucceeds (length (loading st)) rootA st2) HB)
      as (_ & _ & _ & ->); [|done].
    by rewrite Hl3, list_lookup_delete_ge.
  - destruct (loadSucceeds_catalog _ rootB B st2 HB HlB)
      as (_ & _ & _ & _ & _ & _ & _ & _ & _ & Hl3 & _).
    destruct (displayed_loadSucceeds (length (loading st)) rootA A
                (loadSucceeds (S (length (loading st))) rootB st2) HA)
      as (_ & _ & _ & ->); [|done].
    by rewrite Hl3, list_lookup_delete_lt by lia.
Qed.

Lemma last_completed_load_is_displayed_witness :
  reachable regularShown ∧ is_Some (currentModel regularShown)
  ∧ "Skeleton Hand" ∈ keys modelFiles ∧ "Regular Hand" ∈ keys modelFiles
  ∧ displayedName
      (run [LoadSucceeds 0 identity; LoadSucceeds 0 identity] twoRequests)
    = Some "Regular Hand"
  ∧ displayedName
      (run [LoadSucceeds 1 identity; LoadSucceeds 0 identity] twoRequests)
    = Some "Skeleton Hand".
Proof.
  assert (is_Some (currentModel regularShown)) as Hcm by (by eexists).
  split; [exact reachable_regularShown|]. split; [exact Hcm|].
  split; [exact skeleton_hand_in_catalog|].
  split; [exact regular_hand_in_catalog|].
  exact (proj2 (last_completed_load_is_displayed regularShown
    "Skeleton Hand" "Regular Hand" identity identity
    reachable_regularShown Hcm skeleton_hand_in_catalog regular_hand_in_catalog)).
Defined.

(** ** C2: a load that fails

    C2 as the specification states it (after a failed load the model
    displayed before is still in the scene, which is never left without a
    model) fails: "Regular Hand" is displayed and in the scene, "Skeleton
    Hand" is chosen and its load fails.  The scene is left without any
    model: the Regular Hand left it when the load was requested, and the
    error callback only logs. *)
Lemma failure_isolation_counterexample :
  currentModel regularShown = Some 0
  ∧ modelsInScene regularShown = [0]
  ∧ modelsInScene
      (run [SelectModel "Skeleton Hand"; LoadFails 0 "not found"] regularShown)
    = []
  ∧ 0 ∉ modelsInScene
      (run [SelectModel "Skeleton Hand"; LoadFails 0 "not found"] regularShown).
Proof. vm_compute. split_and!; try done. by intros ?%elem_of_nil. Qed.

(** C2, as the code has it.  With [Y] displayed, [X] is chosen and its
    load fails.  Afterwards [Y] is still the current model, every object
    has the transform it had, the panel is the one there was and none was
    built, and the error is on the console; but [Y] is not in the scene:
    it left when the load was requested and is not put back. *)
Theorem failed_load_keeps_current_model (st : State) (Y : nat) (X : string)
    (error : string) :
  reachable st → currentModel st = Some Y → X ∈ keys modelFiles →
  let st' := run [SelectModel X; LoadFails (length (loading st)) error] st in
  currentModel st' = Some Y
  ∧ objects st' = objects st
  ∧ displayed st' = displayed st
  ∧ gui st' = gui st
  ∧ length (panels st') = length (panels st)
  ∧ loading st' = loading st
  ∧ console st' = console st ++ [ConsoleError "Error loading model:" error]
  ∧ Y ∉ modelsInScene st'.
Proof.
  intros Hst%reachable_wf Hcm HX. simpl.
  destruct (selectModel_displaying st Y X Hst Hcm HX)
    as (Ho & Hcm1 & Hg & Hp & Hsc & Hl & Hc).
  unfold loadFails, onError. rewrite Hl, lookup_last. simpl.
  rewrite Hl, Ho, Hcm1, Hg, Hp, Hc.
  split_and!; try done.
  - unfold displayed; simpl. by rewrite Hcm1, Ho, Hcm.
  - by rewrite delete_middle, app_nil_r.
  - rewrite elem_of_modelsInScene; simpl. rewrite Hsc.
    apply splice_out_gone, (wf_scene st Hst).
Qed.

Lemma failed_load_keeps_current_model_witness :
  reachable regularShown ∧ currentModel regularShown = Some 0
  ∧ "Skeleton Hand" ∈ keys modelFiles
  ∧ currentModel
      (run [SelectModel "Skeleton Hand"; LoadFails 0 "not found"] regularShown)
    = Some 0
  ∧ objects
      (run [SelectModel "Skeleton Hand"; LoadFails 0 "not found"] regularShown)
    = objects regularShown.
Proof.
  split; [exact reachable_regularShown|]. split; [reflexivity|].
  split; [exact skeleton_hand_in_catalog|].
  pose proof (failed_load_keeps_current_model regularShown 0 "Skeleton Hand"
                "not found" reachable_regularShown eq_refl
                skeleton_hand_in_catalog) as (H1 & H2 & _).
  by split.
Defined.

(** ** C3: when the previous model leaves the scene

    C3 as the specification states it (the previous model is released
    only after the new load succeeds, never before) fails: "Regular Hand"
    is displayed and in the scene, "Skeleton Hand" is chosen.  The load is
    outstanding and the Regular Hand has already left the scene. *)
Lemma release_after_load_counterexample :
  modelsInScene regularShown = [0]
  ∧ loading (step regularShown (SelectModel "Skeleton Hand"))
    = [get "Skeleton Hand" modelFiles]
  ∧ currentModel (step regularShown (SelectModel "Skeleton Hand")) = Some 0
  ∧ modelsInScene (step regularShown (SelectModel "Skeleton Hand")) = []
  ∧ 0 ∉ modelsInScene (step regularShown (SelectModel "Skeleton Hand")).
Proof. vm_compute. split_and!; try done. by intros ?%elem_of_nil. Qed.

(** C3, as the code has it.  With [old] displayed, [X] is chosen.  [old]
    leaves the scene at once, while the load is still outstanding; when
    the load then succeeds, the new model is the current one and in the
    scene, and [old] is still out of it. *)
Theorem previous_model_leaves_at_request (st : State) (old : nat) (X : string)
    (root : Transform) :
  reachable st → currentModel st = Some old → X ∈ keys modelFiles →
  let requested := step st (SelectModel X) in
  let loaded := step requested (LoadSucceeds (length (loading st)) root) in
  loading requested = loading st ++ [get X modelFiles]
  ∧ currentModel requested = Some old
  ∧ (old ∉ modelsInScene requested)
  ∧ currentModel loaded = Some (length (objects st))
  ∧ displayedName loaded = Some X
  ∧ length (objects st) ∈ modelsInScene loaded
  ∧ old ∉ modelsInScene loaded.
Proof.
  intros Hst%reachable_wf Hcm HX. simpl.
  destruct (selectModel_displaying st old X Hst Hcm HX)
    as (Ho & Hcm1 & _ & _ & Hsc & Hl & _).
  assert (loading (selectModel X st) !! length (loading st)
          = Some (get X modelFiles)) as Hk by (rewrite Hl; apply lookup_last).
  destruct (loadSucceeds_catalog _ root X _ HX Hk)
    as (_ & _ & _ & _ & _ & Hcm2 & Hsc2 & _).
  destruct (displayed_loadSucceeds _ root X _ HX Hk) as (_ & _ & _ & Hn).
  rewrite Ho in Hcm2, Hsc2. rewrite Hsc in Hsc2.
  assert (Model old ∉ splice_out (Model old) (scene st)) as Hgone
    by apply splice_out_gone, (wf_scene st Hst).
  split_and!; try done.
  - by rewrite elem_of_modelsInScene, Hsc.
  - rewrite elem_of_modelsInScene, Hsc2, elem_of_app, list_elem_of_singleton.
    by right.
  - rewrite elem_of_modelsInScene, Hsc2, elem_of_app, list_elem_of_singleton.
    intros [Hin%splice_out_elem | [= Heq]]; [done|].
    pose proof (wf_current st Hst old Hcm). lia.
Qed.

Lemma previous_model_leaves_at_request_witness :
  reachable regularShown ∧ currentModel regularShown = Some 0
  ∧ "Skeleton Hand" ∈ keys modelFiles
  ∧ (0 ∉ modelsInScene (step regularShown (SelectModel "Skeleton Hand")))
  ∧ 0 ∉ modelsInScene
      (step (step regularShown (SelectModel "Skeleton Hand"))
         (LoadSucceeds 0 identity)).
Proof.
  split; [exact reachable_regularShown|]. split; [reflexivity|].
  split; [exact skeleton_hand_in_catalog|].
  pose proof (previous_model_leaves_at_request regularShown 0 "Skeleton Hand"
                identity reachable_regularShown eq_refl
                skeleton_hand_in_catalog) as (_ & _ & H3 & _ & _ & _ & H7).
  by split.
Defined.

(** ** C4: the Default preset after a load

    For every model [m] of the asset catalog and every state in which a
    load of [m] is outstanding, right after that load succeeds the
    transform of the displayed model is [modelPresets[m]["Default"]],
    component for component, whatever transform the asset came with: the
    success callback applies it itself. *)
Theorem default_preset_after_load (st : State) (k : nat) (root : Transform)
    (m : string) :
  m ∈ keys modelFiles →
  loading st !! k = Some (get m modelFiles) →
  is_Some (lookupPreset (Some m) "Default")
  ∧ transform <$> displayed (step st (LoadSucceeds k root))
    = lookupPreset (Some m) "Default"
  ∧ displayedName (step st (LoadSucceeds k root)) = Some m.
Proof.
  intros Hin Hk. unfold step.
  destruct (displayed_loadSucceeds k root m st Hin Hk) as (preset & -> & -> & ->).
  eauto.
Qed.

Lemma default_preset_after_load_witness :
  "Skeleton Hand" ∈ keys modelFiles
  ∧ loading (step regularShown (SelectModel "Skeleton Hand")) !! 0
    = Some (get "Skeleton Hand" modelFiles)
  ∧ transform <$> displayed
      (step (step regularShown (SelectModel "Skeleton Hand"))
         (LoadSucceeds 0 identity))
    = lookupPreset (Some "Skeleton Hand") "Default".
Proof.
  split; [exact skeleton_hand_in_catalog|]. split; [reflexivity|].
  exact (proj1 (proj2 (default_preset_after_load
    (step regularShown (SelectModel "Skeleton Hand"))
    0 identity "Skeleton Hand" skeleton_hand_in_catalog eq_refl))).
Defined.

(** ** C5: the example scenario

    From the start, once the first load (of "Regular Hand", issued by
    [init]) succeeds, the transform is the Regular Hand's Default; after
    the panel's preset "Palm View" is chosen, it is the Regular Hand's
    Palm View; after "Skeleton Hand" is chosen and its load succeeds, it
    is the Skeleton Hand's Default.  The transforms the assets come with
    do not matter. *)
Theorem example_scenario (root1 root2 : Transform) :
  let s1 := run [LoadSucceeds 0 root1] init in
  let s2 := run [SelectPreset "Palm View"] s1 in
  let s3 := run [SelectModel "Skeleton Hand"; LoadSucceeds 0 root2] s2 in
  transform <$> displayed s1
  = Some {| position := vec3 (-10) (-20) (-7);
            rotation := vec3 (-1.02) (-1.06) 0.07;
            scale := vec3 1 1 1 |}
  ∧ transform <$> displayed s2
    = Some {| position := vec3 1 39 (-6);
              rotation := vec3 4.41 1.72 0.07;
              scale := vec3 1.2 1.2 1.2 |}
  ∧ transform <$> displayed s3
    = Some {| position := vec3 10 30 8;
              rotation := vec3 (-0.7) (-6.2) (-3.2);
              scale := vec3 1.1 1.1 1.1 |}
  ∧ displayedName s1 = Some "Regular Hand"
  ∧ displayedName s2 = Some "Regular Hand"
  ∧ displayedName s3 = Some "Skeleton Hand".
Proof. vm_compute. repeat split. Qed.

(** ** C6: the scale field is uniform

    In every reachable state with a model displayed, a value [v] the
    panel's scale field delivers becomes all three scale components of
    the displayed model. *)
Theorem uniform_scale (st : State) (v : float) :
  reachable st → is_Some (currentModel st) →
  scale ∘ transform <$> displayed (step st (EditScale v)) = Some (vec3 v v v).
Proof.
  intros Hst%reachable_wf Hcm.
  destruct (wf_shown st Hst Hcm) as [g Hg].
  destruct (wf_gui st Hst g Hg) as (cm & m & vw & n & ps & Hcm' & _ & Hp).
  pose proof (wf_current st Hst cm Hcm') as Hlt.
  apply lookup_lt_is_Some in Hlt as [o Ho].
  simpl. unfold editScale, panel. rewrite Hg; simpl. rewrite Hp; simpl.
  rewrite Hcm'. unfold displayed; simpl. rewrite Hcm'; simpl.
  rewrite !list_lookup_alter_eq, Ho. done.
Qed.

Lemma uniform_scale_witness :
  reachable regularShown ∧ is_Some (currentModel regularShown)
  ∧ scale ∘ transform <$> displayed (step regularShown (EditScale 2.5))
    = Some (vec3 2.5 2.5 2.5).
Proof.
  assert (is_Some (currentModel regularShown)) as Hcm by (by eexists).
  split; [exact reachable_regularShown|]. split; [exact Hcm|].
  exact (uniform_scale regularShown 2.5 reachable_regularShown Hcm).
Defined.

(** ** C7: one panel at a time

    In every reachable state at most one panel is on the page.  Every
    rebuild destroys the panel there was, with its controllers, and
    leaves the one it builds as the only panel on the page; so it is after
    any sequence of rebuilds. *)
Theorem one_live_panel (st : State) (names : list (option string)) :
  reachable st → names ≠ [] →
  length (livePanels st) ≤ 1
  ∧ length (livePanels (rebuilds names st)) = 1
  ∧ ∀ name,
      (∃ p, livePanels (createGUI name st) = [p]
            ∧ panel (createGUI name st) = Some (length (panels st), p))
      ∧ ∀ g, gui st = Some g →
          ∃ p, panels (createGUI name st) !! g = Some p
               ∧ destroyed p = true ∧ controllers p = [].
Proof.
  intros Hst%reachable_wf Hne. pose proof (wf_live st Hst) as Hinv.
  split_and!.
  - by apply onlyGui_at_most_one.
  - by apply rebuilds_one_live.
  - intros name. split.
    + destruct (createGUI_one_live name st Hinv) as (_ & p & Hp & _ & Hg). eauto.
    + intros g Hg. apply createGUI_destroys; [done|].
      destruct (wf_gui st Hst g Hg) as (? & ? & ? & ? & ? & _ & _ & Hp).
      by apply lookup_lt_Some in Hp.
Qed.

Lemma one_live_panel_witness :
  reachable regularShown
  ∧ [Some "Skeleton Hand"; None; Some "Regular Hand"] ≠ []
  ∧ length (livePanels regularShown) ≤ 1
  ∧ length (livePanels
              (rebuilds [Some "Skeleton Hand"; None; Some "Regular Hand"]
                 regularShown)) = 1.
Proof.
  assert ([Some "Skeleton Hand"; None; Some "Regular Hand"] ≠ []) as Hne by done.
  split; [exact reachable_regularShown|]. split; [exact Hne|].
  pose proof (one_live_panel regularShown _ reachable_regularShown Hne)
    as (H1 & H2 & _).
  by split.
Defined.

(** ** C8: applying a preset is idempotent

    For every state and every preset of the catalog for a model, applying
    it twice in a row leaves the same state (so the same transform) as
    applying it once. *)
Theorem applyPreset_idempotent (st : State) (modelName presetName : string) :
  is_Some (lookupPreset (Some modelName) presetName) →
  applyPreset (Some modelName) presetName
    (applyPreset (Some modelName) presetName st)
  = applyPreset (Some modelName) presetName st.
Proof.
  intros [preset Hp].
  destruct (currentModel st) as [cm|] eqn:Hcm.
  - rewrite (applyPreset_hit _ _ st cm preset Hcm Hp).
    rewrite (applyPreset_hit _ _ _ cm preset); [|done..].
    unfold with_objects; simpl. f_equal.
    apply alter_idemp. intros o. by rewrite !place_eq.
  - by rewrite !(applyPreset_miss _ _ st) by auto.
Qed.

Lemma applyPreset_idempotent_witness :
  is_Some (lookupPreset (Some "Regular Hand") "Side View")
  ∧ applyPreset (Some "Regular Hand") "Side View"
      (applyPreset (Some "Regular Hand") "Side View" regularShown)
    = applyPreset (Some "Regular Hand") "Side View" regularShown
  ∧ applyPreset (Some "Regular Hand") "Side View" regularShown ≠ regularShown.
Proof.
  assert (is_Some (lookupPreset (Some "Regular Hand") "Side View")) as Hp
    by (vm_compute; eauto).
  split; [exact Hp|]. split.
  - exact (applyPreset_idempotent regularShown "Regular Hand" "Side View" Hp).
  - vm_compute. discriminate.
Defined.

(** ** C9: nothing to do in the Empty state

    While no model is displayed, choosing a preset or editing a field
    changes nothing, the console included: no panel is there to deliver
    the event, and [applyPreset] itself returns at its guard. *)
Theorem empty_noops (st : State) (modelName : option string)
    (presetName : string) (k : Key) (v : float) :
  reachable st → currentModel st = None →
  step st (SelectPreset presetName) = st
  ∧ step st (EditPosition k v) = st
  ∧ step st (EditRotation k v) = st
  ∧ step st (EditScale v) = st
  ∧ applyPreset modelName presetName st = st.
Proof.
  intros Hst Hcm. pose proof (empty_no_panel st Hst Hcm) as Hp. simpl.
  unfold selectPreset, editPosition, editRotation, editScale. rewrite Hp.
  split_and!; try done. apply applyPreset_miss; auto.
Qed.

Lemma empty_noops_witness :
  reachable init ∧ currentModel init = None
  ∧ step init (SelectPreset "Palm View") = init
  ∧ step init (EditScale 2) = init
  ∧ applyPreset (Some "Regular Hand") "Palm View" init = init.
Proof.
  pose proof (empty_noops init (Some "Regular Hand") "Palm View" kx 2
                reachable_init eq_refl) as (H1 & _ & _ & H4 & H5).
  split; [exact reachable_init|]. split; [reflexivity|]. by split_and!.
Defined.

(** ** C10: the first load

    [init] itself issues the load of "Regular Hand", in a state with no
    model and no panel, and no user event is needed: when that load
    succeeds, the loaded object is the current model and in the scene, it
    carries the Regular Hand's Default preset, and the panel is built for
    it. *)
Theorem init_loads_regular_hand (root : Transform) :
  currentModel init = None ∧ gui init = None ∧ modelsInScene init = []
  ∧ loading init = [get "Regular Hand" modelFiles]
  ∧ let st := step init (LoadSucceeds 0 root) in
    ∃ presets,
      get "Regular Hand" modelPresets = Some presets
      ∧ currentModel st = Some 0
      ∧ modelsInScene st = [0]
      ∧ displayedName st = Some "Regular Hand"
      ∧ transform <$> displayed st = get "Default" presets
      ∧ is_Some (get "Default" presets)
      ∧ panel st
        = Some (0, {| title := "Model Controls";
                      controllers := built 0 (Some "Regular Hand") "Default"
                                       "Regular Hand" presets;
                      destroyed := false |})
      ∧ length (livePanels st) = 1
      ∧ loading st = [] ∧ console st = [].
Proof.
  split_and!; try done. eexists. vm_compute. split_and!; eauto.
Qed.

(** * Further properties of the code

    What the functions above do beyond the properties C1 to C10: which
    parts of the state an event can touch, what the panel's remaining
    controllers do, what no event ever does. *)

(** ** Basic facts *)

Lemma reachable_step st e : reachable st → reachable (step st e).
Proof.
  intros [es ->]. exists (es ++ [e]). unfold run. by rewrite foldl_snoc.
Qed.

Lemma reachable_induction (P : State → Prop) :
  P init →
  (∀ st e, reachable st → P st → P (step st e)) →
  ∀ st, reachable st → P st.
Proof.
  intros Hinit Hstep st [es ->].
  induction es as [|e es IH] using rev_ind; [done|].
  unfold run. rewrite foldl_snoc. apply Hstep; [by exists es|done].
Qed.

Lemma get_keys {V} key (o : obj V) : key ∈ keys o ↔ is_Some (get key o).
Proof.
  unfold keys, get. induction o as [|[k v] o IH]; simpl.
  - rewrite elem_of_nil. split; [done|]. by intros [? ?].
  - rewrite elem_of_cons. destruct (String.eqb_spec key k) as [->|Hne].
    + split; eauto.
    + rewrite IH. tauto.
Qed.

Lemma omap_fmap_same {A B} (f : A → A) (g : A → option B) (l : list A) :
  (∀ a, g (f a) = g a) → omap g (f <$> l) = omap g l.
Proof.
  intros Hfg. induction l as [|a l IH]; csimpl; [done|].
  by rewrite Hfg, IH.
Qed.

Lemma fmap_alter_same {A B} (f : A → A) (g : A → B) (l : list A) i :
  (∀ a, g (f a) = g a) → g <$> alter f i l = g <$> l.
Proof.
  intros Hfg. revert i. induction l as [|a l IH]; intros [|i]; simpl; try done.
  - by rewrite Hfg.
  - f_equal. apply IH.
Qed.

Lemma alter_on_transform_id (l : list Object3D) i :
  alter (on_transform id) i l = l.
Proof. apply list_alter_id. by intros []. Qed.

Lemma place_settle preset : place preset = on_transform (settle preset).
Proof. done. Qed.

(** Storing a selector's value leaves the wiring alone. *)
Lemma wiring_stored (f : Controller → Controller) p :
  (∃ v, f = chooseModel v) ∨ (∃ v, f = chooseView v) →
  wiring {| title := title p; controllers := f <$> controllers p;
            destroyed := destroyed p |}
  = wiring p.
Proof.
  intros Hf. unfold wiring, modelSelector, viewSelector, positionField,
    rotationField, scaleField; simpl.
  rewrite !omap_fmap_same; [done|..];
    intros c; destruct Hf as [[v ->]|[v ->]]; by destruct c.
Qed.

Lemma userChange_refl cm st : userChange cm st st.
Proof.
  split; try done; [|by left].
  exists id. by rewrite alter_on_transform_id.
Qed.

Lemma wf_built st cm :
  wf st → currentModel st = Some cm →
  ∃ g model view name presets,
    gui st = Some g
    ∧ get name modelPresets = Some presets
    ∧ panels st !! g
      = Some {| title := "Model Controls";
                controllers := built cm model view name presets;
                destroyed := false |}.
Proof.
  intros Hst Hcm. destruct (wf_shown st Hst) as [g Hg]; [by eexists|].
  destruct (wf_gui st Hst g Hg) as (cm' & m & v & n & ps & Hcm' & Hn & Hp).
  assert (cm' = cm) as -> by congruence. by exists g, m, v, n, ps.
Qed.

Lemma wf_empty st : wf st → currentModel st = None → panel st = None.
Proof.
  intros Hst Hcm. unfold panel. destruct (gui st) as [g|] eqn:Hg; [|done].
  destruct (wf_gui st Hst g Hg) as (cm & _ & _ & _ & _ & Hcm' & _). congruence.
Qed.

(** ** What an event of the panel changes *)

Lemma selectModel_change st cm X :
  wf st → currentModel st = Some cm → userChange cm st (selectModel X st).
Proof.
  intros Hst Hcm.
  destruct (wf_built st cm Hst Hcm) as (g & m & v & n & ps & Hg & _ & Hp).
  unfold selectModel, panel. rewrite Hg; simpl. rewrite Hp; simpl.
  case_bool_decide as HX; [|apply userChange_refl].
  unfold loadModel; simpl. rewrite Hcm. split; simpl; try done.
  - exists id. by rewrite alter_on_transform_id.
  - apply fmap_alter_same. intros p. apply wiring_stored. eauto.
  - right. by exists X.
Qed.

Lemma selectPreset_change st cm presetName :
  wf st → currentModel st = Some cm → userChange cm st (selectPreset presetName st).
Proof.
  intros Hst Hcm.
  destruct (wf_built st cm Hst Hcm) as (g & m & v & n & ps & Hg & Hn & Hp).
  unfold selectPreset, panel. rewrite Hg; simpl. rewrite Hp; simpl.
  case_bool_decide as Hin; [|apply userChange_refl].
  apply get_keys in Hin as [preset Hpreset].
  erewrite applyPreset_hit; [|done|by unfold lookupPreset; simpl; rewrite Hn].
  split; simpl; try done; [..|by left].
  - exists (settle preset). by rewrite place_settle.
  - apply fmap_alter_same. intros p. apply wiring_stored. eauto.
Qed.

Lemma editPosition_change st cm k v :
  wf st → currentModel st = Some cm →
  editPosition k v st
  = with_objects
      (alter (on_transform (λ t, with_position (assign k v (position t)) t)) cm)
      st.
Proof.
  intros Hst Hcm.
  destruct (wf_built st cm Hst Hcm) as (g & m & vw & n & ps & Hg & _ & Hp).
  unfold editPosition, panel. rewrite Hg; simpl. rewrite Hp; simpl.
  by destruct k.
Qed.

Lemma editRotation_change st cm k v :
  wf st → currentModel st = Some cm →
  editRotation k v st
  = with_objects
      (alter (on_transform (λ t, with_rotation (assign k v (rotation t)) t)) cm)
      st.
Proof.
  intros Hst Hcm.
  destruct (wf_built st cm Hst Hcm) as (g & m & vw & n & ps & Hg & _ & Hp).
  unfold editRotation, panel. rewrite Hg; simpl. rewrite Hp; simpl.
  by destruct k.
Qed.

Lemma editScale_change st cm v :
  wf st → currentModel st = Some cm →
  editScale v st
  = with_objects (alter (on_transform (with_scale (vec3 v v v))) cm) st.
Proof.
  intros Hst Hcm.
  destruct (wf_built st cm Hst Hcm) as (g & m & vw & n & ps & Hg & _ & Hp).
  unfold editScale, panel. rewrite Hg; simpl. rewrite Hp; simpl.
  rewrite Hcm. unfold scale_set, with_objects; simpl.
  by rewrite alter_alter.
Qed.

Lemma userChange_with_objects cm f st :
  userChange cm st (with_objects (alter (on_transform f) cm) st).
Proof. split; simpl; try done; [by exists f|by left]. Qed.

(** Every event of the panel, in a well-formed state. *)
Lemma user_step st e :
  wf st → ofLoader e = false →
  match currentModel st with
  | Some cm => userChange cm st (step st e)
  | None => step st e = st
  end.
Proof.
  intros Hst He. destruct (currentModel st) as [cm|] eqn:Hcm.
  - destruct e; try done; simpl.
    + by apply selectModel_change.
    + by apply selectPreset_change.
    + rewrite (editPosition_change st cm) by done. apply userChange_with_objects.
    + rewrite (editRotation_change st cm) by done. apply userChange_with_objects.
    + rewrite (editScale_change st cm) by done. apply userChange_with_objects.
  - pose proof (wf_empty st Hst Hcm) as Hp.
    destruct e; try done; simpl;
      unfold selectModel, selectPreset, editPosition, editRotation, editScale;
      by rewrite Hp.
Qed.

(** ** What an event of the loader changes *)

Lemma loadFails_cases k error st :
  loadFails k error st = st
  ∨ is_Some (loading st !! k)
    ∧ loadFails k error st
      = log (ConsoleError "Error loading model:" error)
          (with_loading (delete k) st).
Proof.
  unfold loadFails, onError. destruct (loading st !! k); [right|left]; eauto.
Qed.

Lemma loadSucceeds_cases k root st :
  wf st →
  loadSucceeds k root st = st
  ∨ ∃ name, name ∈ keys modelFiles ∧ loading st !! k = Some (get name modelFiles).
Proof.
  intros Hst. destruct (loading st !! k) as [path|] eqn:Hk.
  - right. pose proof (wf_loading st Hst) as Hl. rewrite Forall_lookup in Hl.
    destruct (Hl k path Hk) as (name & Hin & ->). eauto.
  - left. unfold loadSucceeds. by rewrite Hk.
Qed.

(** A property kept by every kind of event is kept by every event. *)
Lemma step_cases (P : State → Prop) st e :
  wf st → P st →
  (∀ cm, currentModel st = Some cm → userChange cm st (step st e) → P (step st e)) →
  (∀ k error, is_Some (loading st !! k) →
     P (log (ConsoleError "Error loading model:" error)
          (with_loading (delete k) st))) →
  (∀ k root name, name ∈ keys modelFiles →
     loading st !! k = Some (get name modelFiles) →
     P (loadSucceeds k root st)) →
  P (step st e).
Proof.
  intros Hst HP Huser Hfail Hload.
  destruct (ofLoader e) eqn:He.
  - destruct e; try done; simpl.
    + destruct (loadSucceeds_cases k root st Hst) as [-> | (name & Hin & Hk)];
        eauto.
    + destruct (loadFails_cases k error st) as [-> | [Hk ->]]; eauto.
  - pose proof (user_step st e Hst He) as Hu.
    destruct (currentModel st) as [cm|] eqn:Hcm; [eauto|by rewrite Hu].
Qed.

Local Ltac by_step_cases st e Hst :=
  pattern (step st e); apply (step_cases _ st e Hst); cbv beta.

Lemma lastIndex_snoc {A} (l : list A) a : lastIndex (l ++ [a]) = Some (length l).
Proof. unfold lastIndex. rewrite length_app; simpl. by rewrite Nat.add_1_r. Qed.

Lemma lastIndex_length {A B} (l : list A) (k : list B) :
  length l = length k → lastIndex l = lastIndex k.
Proof. unfold lastIndex. by intros ->. Qed.

Lemma userChange_lengths cm st st' :
  userChange cm st st' →
  length (objects st') = length (objects st)
  ∧ length (panels st') = length (panels st).
Proof.
  intros [[f Ho] Hp _ _ _ _]. split.
  - by rewrite Ho, length_alter.
  - by rewrite <- (length_fmap wiring), Hp, length_fmap.
Qed.

(** The panel before and after an event that leaves the wiring alone. *)
Lemma panel_wiring st st' g p' :
  wiring <$> panels st' = wiring <$> panels st → gui st' = gui st →
  panel st' = Some (g, p') →
  ∃ p, panel st = Some (g, p) ∧ wiring p = wiring p'.
Proof.
  intros Hw Hg. unfold panel. rewrite Hg.
  destruct (gui st) as [g0|]; simpl; [|done].
  destruct (panels st' !! g0) as [q'|] eqn:Hq'; simpl; [|done].
  intros [= <- <-].
  assert ((wiring <$> panels st) !! g0 = Some (wiring q')) as Hq
    by by rewrite <- Hw, list_lookup_fmap, Hq'.
  rewrite list_lookup_fmap in Hq.
  destruct (panels st !! g0) as [q|]; simpl in *; [|done].
  exists q. split; congruence.
Qed.

Lemma userChange_displayed cm st st' :
  currentModel st = Some cm → userChange cm st st' →
  ∃ f, displayed st' = on_transform f <$> displayed st.
Proof.
  intros Hcm [[f Ho] _ Hcm' _ _ _]. exists f.
  unfold displayed. rewrite Hcm', Hcm; simpl.
  by rewrite Ho, list_lookup_alter_eq.
Qed.

Lemma userChange_displayedName cm st st' :
  currentModel st = Some cm → userChange cm st st' →
  displayedName st' = displayedName st.
Proof.
  intros Hcm Hu. destruct (userChange_displayed cm st st' Hcm Hu) as [f Hd].
  unfold displayedName. rewrite Hd. by destruct (displayed st).
Qed.

(** ** Invariants of the reachable states *)

Lemma reachable_latest st :
  reachable st →
  currentModel st = lastIndex (objects st)
  ∧ gui st = lastIndex (panels st)
  ∧ length (panels st) = length (objects st).
Proof.
  revert st. apply reachable_induction; [done|].
  intros st e Hst%reachable_wf (Hcm & Hg & Hlen).
  by_step_cases st e Hst; [done|..].
  - intros cm _ Hu. destruct (userChange_lengths cm st _ Hu) as [Ho Hp].
    rewrite (uc_currentModel _ _ _ Hu), (uc_gui _ _ _ Hu), Hcm, Hg.
    split_and!; [by apply lastIndex_length..|congruence].
  - done.
  - intros k root name Hin Hk.
    destruct (loadSucceeds_catalog k root name st Hin Hk)
      as (ps & pr & _ & _ & Ho & Hcm' & _ & Hg' & Hp & _).
    rewrite Ho, Hcm', Hg', Hp, !lastIndex_snoc, !length_app, length_destroyOld.
    simpl. split_and!; congruence.
Qed.

Lemma reachable_allocated st ref :
  reachable st → Model ref ∈ scene st → ref < length (objects st).
Proof.
  intros Hst. revert ref. revert st Hst.
  apply (reachable_induction (λ st, ∀ ref, Model ref ∈ scene st →
                                           ref < length (objects st))).
  { intros ref. simpl. rewrite !elem_of_cons, elem_of_nil.
    intuition discriminate. }
  intros st e Hst%reachable_wf IH.
  by_step_cases st e Hst; [done|..].
  - intros cm _ Hu ref.
    destruct (userChange_lengths cm st _ Hu) as [-> _].
    destruct (uc_scene_loading _ _ _ Hu) as [[-> _] | (X & _ & -> & _)];
      [apply IH|]. intros Hin%splice_out_elem. by apply IH.
  - done.
  - intros k root name Hin Hk ref.
    destruct (loadSucceeds_catalog k root name st Hin Hk)
      as (ps & pr & _ & _ & -> & _ & -> & _).
    rewrite length_app, elem_of_app, list_elem_of_singleton; simpl.
    intros [Href%splice_out_elem%IH | [= ->]]; lia.
Qed.

(** The name the view selector's callback closes over is the name of the
    displayed model. *)
Lemma reachable_named st g p options name :
  reachable st → panel st = Some (g, p) →
  viewSelector p = Some (options, name) →
  displayedName st = Some name.
Proof.
  intros Hst. revert g p options name. revert st Hst.
  apply (reachable_induction (λ st, ∀ g p options name,
    panel st = Some (g, p) → viewSelector p = Some (options, name) →
    displayedName st = Some name)); [done|].
  intros st e Hst%reachable_wf IH.
  by_step_cases st e Hst; [done|..].
  - intros cm Hcm Hu g p' options name Hp' Hv.
    destruct (panel_wiring st _ g p' (uc_panels _ _ _ Hu) (uc_gui _ _ _ Hu) Hp')
      as (p & Hp & Hw).
    rewrite (userChange_displayedName cm st _ Hcm Hu).
    apply (IH g p options name Hp).
    unfold wiring in Hw. congruence.
  - intros k error _. apply IH.
  - intros k root name Hin Hk g p options name' Hp Hv.
    destruct (displayed_loadSucceeds k root name st Hin Hk) as (_ & _ & _ & ->).
    destruct (loadSucceeds_catalog k root name st Hin Hk)
      as (ps & pr & _ & _ & _ & _ & _ & Hg & Hpanels & _).
    unfold panel in Hp. rewrite Hg, Hpanels in Hp; simpl in Hp.
    rewrite <- length_destroyOld, lookup_last in Hp; simpl in Hp.
    injection Hp as <- <-. unfold viewSelector, built in Hv; simpl in Hv.
    congruence.
Qed.

Lemma reachable_firstLoadFailed : reachable firstLoadFailed.
Proof. exists [LoadFails 0 "not found"]. by vm_compute. Qed.

Lemma reachable_bothLoaded : reachable bothLoaded.
Proof.
  exists [LoadSucceeds 0 identity; SelectModel "Skeleton Hand";
          SelectModel "Regular Hand"; LoadSucceeds 1 identity;
          LoadSucceeds 0 identity].
  by vm_compute.
Qed.

Lemma reachable_switchFailed : reachable switchFailed.
Proof.
  exists [LoadSucceeds 0 identity; SelectModel "Skeleton Hand";
          LoadFails 0 "not found"].
  by vm_compute.
Qed.

(** ** The console *)

(** X1.  Nothing the program runs ever throws: in every reachable state
    the console holds the reports of failed loads and nothing else.  In
    particular [createGUI] always finds the presets of the model it is
    called for, and the scale callback always finds a current model. *)
Theorem no_uncaught_error (st : State) :
  reachable st → Forall loadError (console st).
Proof.
  revert st. apply reachable_induction; [constructor|].
  intros st e Hst%reachable_wf IH. by_step_cases st e Hst; [done|..].
  - intros cm _ Hu. by rewrite (uc_console _ _ _ Hu).
  - intros k error _. simpl. apply Forall_app. split; [done|].
    repeat constructor. by exists error.
  - intros k root name Hin Hk.
    destruct (loadSucceeds_catalog k root name st Hin Hk)
      as (ps & pr & _ & _ & _ & _ & _ & _ & _ & _ & ->). done.
Qed.

Lemma no_uncaught_error_witness :
  reachable switchFailed
  ∧ console switchFailed = [ConsoleError "Error loading model:" "not found"]
  ∧ Forall loadError (console switchFailed).
Proof.
  split; [exact reachable_switchFailed|]. split; [by vm_compute|].
  exact (no_uncaught_error switchFailed reachable_switchFailed).
Defined.

(** ** A load of a path that is not in [modelFiles] *)




(** ** [applyPreset] and the rest of the state *)


(** ** States without a panel *)

Lemma step_without_panel st e :
  gui st = None → loading st = [] → step st e = st.
Proof.
  intros Hg Hl.
  destruct e; simpl;
    unfold loadSucceeds, loadFails, selectModel, selectPreset, editPosition,
      editRotation, editScale, panel;
    by rewrite ?Hg, ?Hl.
Qed.



(** ** The Empty state *)

Lemma step_keeps_model st e :
  wf st → is_Some (currentModel st) → is_Some (currentModel (step st e)).
Proof.
  intros Hst Hcm. by_step_cases st e Hst; [done|..].
  - intros cm _ Hu. by rewrite (uc_currentModel _ _ _ Hu).
  - done.
  - intros k root name Hin Hk.
    destruct (loadSucceeds_catalog k root name st Hin Hk)
      as (ps & pr & _ & _ & _ & -> & _). by eexists.
Qed.

(** X5.  Once a model is displayed, one always is: no event resets
    [currentModel]. *)
Theorem displaying_forever (st : State) (es : list Event) :
  reachable st → is_Some (currentModel st) →
  is_Some (currentModel (run es st)).
Proof.
  revert st. induction es as [|e es IH]; intros st Hst Hcm; [done|].
  simpl. apply IH; [by apply reachable_step|].
  by apply step_keeps_model; [apply reachable_wf|].
Qed.

Lemma displaying_forever_witness :
  reachable regularShown ∧ is_Some (currentModel regularShown)
  ∧ is_Some (currentModel
               (run [SelectModel "Skeleton Hand"; LoadFails 0 "not found"]
                  regularShown)).
Proof.
  assert (is_Some (currentModel regularShown)) as Hcm by (by eexists).
  split; [exact reachable_regularShown|]. split; [exact Hcm|].
  exact (displaying_forever regularShown
           [SelectModel "Skeleton Hand"; LoadFails 0 "not found"]
           reachable_regularShown Hcm).
Defined.

(** X6.  The program is without a current model in two states only: the
    one [init] leaves, with the first load outstanding, and the one after
    that load has failed. *)
Theorem empty_states (st : State) :
  reachable st → currentModel st = None →
  st = init ∨ ∃ error, st = step init (LoadFails 0 error).
Proof.
  revert st.
  apply (reachable_induction
           (λ st, currentModel st = None →
                  st = init ∨ ∃ error, st = step init (LoadFails 0 error)));
    [by left|].
  intros st e Hst IH Hnone.
  assert (currentModel st = None) as Hcm.
  { destruct (currentModel st) as [cm|] eqn:Hcm; [|done].
    destruct (step_keeps_model st e (reachable_wf st Hst)) as [cm' Hcm'];
      [by rewrite Hcm|congruence]. }
  destruct (IH Hcm) as [-> | [error ->]].
  - destruct (ofLoader e) eqn:He.
    + destruct e as [[|k] root|[|k] error| | | | |]; try done.
      * by left.
      * right. by exists error.
      * by left.
    + left. by apply (user_step init e wf_init He).
  - right. exists error. by apply step_without_panel.
Qed.

Lemma empty_states_witness :
  reachable firstLoadFailed ∧ currentModel firstLoadFailed = None
  ∧ (firstLoadFailed = init
     ∨ ∃ error, firstLoadFailed = step init (LoadFails 0 error)).
Proof.
  assert (currentModel firstLoadFailed = None) as Hcm by (by vm_compute).
  split; [exact reachable_firstLoadFailed|]. split; [exact Hcm|].
  exact (empty_states firstLoadFailed reachable_firstLoadFailed Hcm).
Defined.

(** ** The view selector *)

(** X7.  In every reachable state, choosing a preset the panel offers
    sets the transform of the displayed model to the entry of
    [modelPresets] for that preset and for the model that is displayed:
    the name the selector's callback closed over when the panel was built
    is still the displayed model's. *)
Theorem select_preset_of_displayed_model (st : State) (g : nat) (p : GUI)
    (options : list string) (name presetName : string) :
  reachable st → panel st = Some (g, p) →
  viewSelector p = Some (options, name) → presetName ∈ options →
  displayedName st = Some name
  ∧ is_Some (lookupPreset (Some name) presetName)
  ∧ transform <$> displayed (step st (SelectPreset presetName))
    = lookupPreset (Some name) presetName
  ∧ displayedName (step st (SelectPreset presetName)) = Some name.
Proof.
  intros Hst Hp Hv Hin.
  pose proof (reachable_named st g p options name Hst Hp Hv) as Hname.
  apply reachable_wf in Hst.
  destruct (wf_panel st g p Hst Hp)
    as (cm & m & v & n & ps & Hcm & Hlt & Hn & Hg & Hpg & ->).
  unfold viewSelector, built in Hv; simpl in Hv. injection Hv as <- <-.
  apply get_keys in Hin as [preset Hpreset].
  assert (lookupPreset (Some n) presetName = Some preset) as Hl
    by (by unfold lookupPreset; simpl; rewrite Hn).
  apply lookup_lt_is_Some in Hlt as [o Ho].
  assert (step st (SelectPreset presetName)
          = with_objects (alter (place preset) cm)
              (setValue g (chooseView presetName) st)) as ->.
  { simpl. unfold selectPreset. rewrite Hp. unfold viewSelector, built; simpl.
    rewrite bool_decide_eq_true_2 by (apply get_keys; eauto).
    by apply applyPreset_hit. }
  assert (displayed (with_objects (alter (place preset) cm)
                       (setValue g (chooseView presetName) st))
          = Some {| asset := asset o; transform := preset |}) as Hd.
  { unfold displayed; simpl. rewrite Hcm; simpl.
    rewrite list_lookup_alter_eq, Ho; simpl. by rewrite place_eq. }
  split_and!; [done|by rewrite Hl|by rewrite Hd, Hl|].
  unfold displayedName in *. rewrite Hd; simpl.
  unfold displayed in Hname. rewrite Hcm in Hname; simpl in Hname.
  by rewrite Ho in Hname.
Qed.

Lemma select_preset_of_displayed_model_witness :
  reachable bothLoaded
  ∧ (∃ p, panel bothLoaded = Some (2, p)
          ∧ viewSelector p
            = Some (["Default"; "Palm View"; "Wrist View"], "Skeleton Hand"))
  ∧ "Wrist View" ∈ ["Default"; "Palm View"; "Wrist View"]
  ∧ transform <$> displayed (step bothLoaded (SelectPreset "Wrist View"))
    = lookupPreset (Some "Skeleton Hand") "Wrist View".
Proof.
  assert (∃ p, panel bothLoaded = Some (2, p)
               ∧ viewSelector p
                 = Some (["Default"; "Palm View"; "Wrist View"], "Skeleton Hand"))
    as Hex by (eexists; split; vm_compute; reflexivity).
  assert ("Wrist View" ∈ ["Default"; "Palm View"; "Wrist View"]) as Hin
    by (do 2 apply list_elem_of_further; apply list_elem_of_here).
  split; [exact reachable_bothLoaded|].
  split; [exact Hex|]. split; [exact Hin|].
  destruct Hex as (p & Hp & Hv).
  exact (proj1 (proj2 (proj2 (select_preset_of_displayed_model bothLoaded 2 p _
    "Skeleton Hand" "Wrist View" reachable_bothLoaded Hp Hv Hin)))).
Defined.

(** ** The number fields *)

Lemma component_assign k k' v w :
  component k' (assign k v w) = if decide (k' = k) then v else component k' w.
Proof. by destruct k, k'. Qed.

Lemma displayed_with_objects st cm o f :
  currentModel st = Some cm → objects st !! cm = Some o →
  displayed (with_objects (alter f cm) st) = Some (f o).
Proof.
  intros Hcm Ho. unfold displayed; simpl. rewrite Hcm; simpl.
  by rewrite list_lookup_alter_eq, Ho.
Qed.

Lemma reachable_displayed st o :
  reachable st → displayed st = Some o →
  ∃ cm, wf st ∧ currentModel st = Some cm ∧ objects st !! cm = Some o.
Proof.
  intros Hst%reachable_wf Hd. unfold displayed in Hd.
  destruct (currentModel st) as [cm|] eqn:Hcm; [|done]. eauto.
Qed.

Lemma alter_insert {A} (f : A → A) (l : list A) i a :
  l !! i = Some a → alter f i l = <[i := f a]> l.
Proof.
  intros Ha. apply list_eq. intros j.
  rewrite list_lookup_alter, list_lookup_insert.
  case_decide as Hj; [subst j|by rewrite decide_False by tauto].
  rewrite Ha; simpl. rewrite decide_True; [done|].
  split; [done|]. by apply lookup_lt_Some in Ha.
Qed.

(** An event that writes [f] of the transform to the current model, on a
    state in which [o] is displayed. *)
Lemma field_edit st o f e :
  reachable st → displayed st = Some o →
  (∀ cm, wf st → currentModel st = Some cm →
     step st e = with_objects (alter (on_transform f) cm) st) →
  displayed (step st e) = Some (on_transform f o)
  ∧ ∀ cm, currentModel st = Some cm →
      step st e = with_objects (λ os, <[cm := on_transform f o]> os) st.
Proof.
  intros Hst Hd He.
  destruct (reachable_displayed st o Hst Hd) as (cm & Hwf & Hcm & Ho).
  rewrite (He cm Hwf Hcm). split; [by apply displayed_with_objects|].
  intros cm' Hcm'. assert (cm' = cm) as -> by congruence.
  unfold with_objects; f_equal. by apply alter_insert.
Qed.

(** X8.  In every reachable state with a model displayed, a value [v]
    delivered by the position field [k] becomes component [k] of the
    displayed model's position; its two other components, the rotation
    and the scale stay as they are, and nothing else in the state
    changes. *)
Theorem position_field_edit (st : State) (o : Object3D) (k : Key) (v : float) :
  reachable st → displayed st = Some o →
  ∃ o', displayed (step st (EditPosition k v)) = Some o'
    ∧ component k (position (transform o')) = v
    ∧ (∀ k', k' ≠ k → component k' (position (transform o'))
                      = component k' (position (transform o)))
    ∧ rotation (transform o') = rotation (transform o)
    ∧ scale (transform o') = scale (transform o)
    ∧ asset o' = asset o
    ∧ ∀ cm, currentModel st = Some cm →
        step st (EditPosition k v) = with_objects (λ os, <[cm := o']> os) st.
Proof.
  intros Hst Hd.
  destruct (field_edit st o (λ t, with_position (assign k v (position t)) t)
              (EditPosition k v) Hst Hd) as [Hd' Hframe].
  { intros cm Hwf Hcm. by apply editPosition_change. }
  eexists. split; [exact Hd'|]. simpl. split_and!; try done.
  - rewrite component_assign. by case_decide.
  - intros k' Hk'. rewrite component_assign. by case_decide.
Qed.

Lemma position_field_edit_witness :
  reachable regularShown
  ∧ (∃ o, displayed regularShown = Some o)
  ∧ transform <$> displayed (step regularShown (EditPosition ky 12))
    = Some {| position := vec3 (-10) 12 (-7);
              rotation := vec3 (-1.02) (-1.06) 0.07;
              scale := vec3 1 1 1 |}.
Proof.
  assert (∃ o, displayed regularShown = Some o) as Hex
    by (eexists; vm_compute; reflexivity).
  split; [exact reachable_regularShown|]. split; [exact Hex|].
  destruct Hex as [o Ho].
  destruct (position_field_edit regularShown o ky 12 reachable_regularShown Ho)
    as (o' & Hd & _).
  rewrite Hd. vm_compute in Hd. by injection Hd as <-.
Defined.

(** X9.  In every reachable state with a model displayed, a value [v]
    delivered by the rotation field [k] becomes component [k] of the
    displayed model's rotation; its two other components, the position
    and the scale stay as they are, and nothing else in the state
    changes. *)
Theorem rotation_field_edit (st : State) (o : Object3D) (k : Key) (v : float) :
  reachable st → displayed st = Some o →
  ∃ o', displayed (step st (EditRotation k v)) = Some o'
    ∧ component k (rotation (transform o')) = v
    ∧ (∀ k', k' ≠ k → component k' (rotation (transform o'))
                      = component k' (rotation (transform o)))
    ∧ position (transform o') = position (transform o)
    ∧ scale (transform o') = scale (transform o)
    ∧ asset o' = asset o
    ∧ ∀ cm, currentModel st = Some cm →
        step st (EditRotation k v) = with_objects (λ os, <[cm := o']> os) st.
Proof.
  intros Hst Hd.
  destruct (field_edit st o (λ t, with_rotation (assign k v (rotation t)) t)
              (EditRotation k v) Hst Hd) as [Hd' Hframe].
  { intros cm Hwf Hcm. by apply editRotation_change. }
  eexists. split; [exact Hd'|]. simpl. split_and!; try done.
  - rewrite component_assign. by case_decide.
  - intros k' Hk'. rewrite component_assign. by case_decide.
Qed.

Lemma rotation_field_edit_witness :
  reachable regularShown
  ∧ (∃ o, displayed regularShown = Some o)
  ∧ transform <$> displayed (step regularShown (EditRotation kz 3.1))
    = Some {| position := vec3 (-10) (-20) (-7);
              rotation := vec3 (-1.02) (-1.06) 3.1;
              scale := vec3 1 1 1 |}.
Proof.
  assert (∃ o, displayed regularShown = Some o) as Hex
    by (eexists; vm_compute; reflexivity).
  split; [exact reachable_regularShown|]. split; [exact Hex|].
  destruct Hex as [o Ho].
  destruct (rotation_field_edit regularShown o kz 3.1 reachable_regularShown Ho)
    as (o' & Hd & _).
  rewrite Hd. vm_compute in Hd. by injection Hd as <-.
Defined.

(** X10.  In every reachable state with a model displayed, a value
    delivered by the scale field changes the scale of the displayed model
    and nothing else: its position and its rotation stay as they are, and
    so does the rest of the state. *)
Theorem scale_field_edit_frame (st : State) (o : Object3D) (v : float) :
  reachable st → displayed st = Some o →
  ∃ o', displayed (step st (EditScale v)) = Some o'
    ∧ scale (transform o') = vec3 v v v
    ∧ position (transform o') = position (transform o)
    ∧ rotation (transform o') = rotation (transform o)
    ∧ asset o' = asset o
    ∧ ∀ cm, currentModel st = Some cm →
        step st (EditScale v) = with_objects (λ os, <[cm := o']> os) st.
Proof.
  intros Hst Hd.
  destruct (field_edit st o (with_scale (vec3 v v v)) (EditScale v) Hst Hd)
    as [Hd' Hframe].
  { intros cm Hwf Hcm. by apply editScale_change. }
  eexists. split; [exact Hd'|]. by split_and!.
Qed.

Lemma scale_field_edit_frame_witness :
  reachable regularShown
  ∧ (∃ o, displayed regularShown = Some o)
  ∧ transform <$> displayed (step regularShown (EditScale 2.5))
    = Some {| position := vec3 (-10) (-20) (-7);
              rotation := vec3 (-1.02) (-1.06) 0.07;
              scale := vec3 2.5 2.5 2.5 |}.
Proof.
  assert (∃ o, displayed regularShown = Some o) as Hex
    by (eexists; vm_compute; reflexivity).
  split; [exact reachable_regularShown|]. split; [exact Hex|].
  destruct Hex as [o Ho].
  destruct (scale_field_edit_frame regularShown o 2.5 reachable_regularShown Ho)
    as (o' & Hd & _).
  rewrite Hd. vm_compute in Hd. by injection Hd as <-.
Defined.

(** ** The scene *)

Lemma filter_fixture_splice_out ref l :
  filter fixture (splice_out (Model ref) l) = filter fixture l.
Proof.
  induction l as [|c l IH]; simpl; [done|].
  case_decide as Hc.
  - subst c. by rewrite filter_cons_False by (by intros []).
  - rewrite !filter_cons. by rewrite IH.
Qed.

(** X11.  The lights, the stage and the two helpers [init] puts in the
    scene stay: in every reachable state they are the children of the
    scene that are not models, in the order [init] added them.
    [loadModel] only ever removes a model. *)
Theorem fixtures_stay (st : State) :
  reachable st →
  filter fixture (scene st)
  = [AmbientLight; DirectionalLight; Stage; GridHelper; AxesHelper].
Proof.
  revert st. apply reachable_induction; [done|].
  intros st e Hst%reachable_wf IH. by_step_cases st e Hst; [done|..].
  - intros cm _ Hu.
    destruct (uc_scene_loading _ _ _ Hu) as [[-> _] | (X & _ & -> & _)];
      [done|]. by rewrite filter_fixture_splice_out.
  - done.
  - intros k root name Hin Hk.
    destruct (loadSucceeds_catalog k root name st Hin Hk)
      as (ps & pr & _ & _ & _ & _ & -> & _).
    by rewrite filter_app, filter_fixture_splice_out, IH.
Qed.

Lemma fixtures_stay_witness :
  reachable bothLoaded
  ∧ scene bothLoaded
    = [AmbientLight; DirectionalLight; Stage; GridHelper; AxesHelper;
       Model 1; Model 2]
  ∧ filter fixture (scene bothLoaded)
    = [AmbientLight; DirectionalLight; Stage; GridHelper; AxesHelper].
Proof.
  split; [exact reachable_bothLoaded|]. split; [by vm_compute|].
  exact (fixtures_stay bothLoaded reachable_bothLoaded).
Defined.

Lemma splice_out_keeps c c' l : c' ≠ c → c' ∈ l → c' ∈ splice_out c l.
Proof.
  intros Hne. induction l as [|d l IH]; simpl; [done|].
  case_decide; rewrite !elem_of_cons; intros [?|?]; subst; tauto.
Qed.

Lemma step_keeps_stale st e ref :
  reachable st → Model ref ∈ scene st → currentModel st ≠ Some ref →
  Model ref ∈ scene (step st e) ∧ currentModel (step st e) ≠ Some ref.
Proof.
  intros Hst Hin Hne.
  pose proof (reachable_allocated st ref Hst Hin) as Hlt.
  apply reachable_wf in Hst. by_step_cases st e Hst; [done|..].
  - intros cm Hcm Hu. rewrite (uc_currentModel _ _ _ Hu). split; [|done].
    destruct (uc_scene_loading _ _ _ Hu) as [[-> _] | (X & _ & -> & _)];
      [done|]. apply splice_out_keeps; [congruence|done].
  - done.
  - intros k root name HX Hk.
    destruct (loadSucceeds_catalog k root name st HX Hk)
      as (ps & pr & _ & _ & _ & -> & -> & _).
    split; [|intros [= Heq]; lia].
    apply elem_of_app. left. apply splice_out_keeps; [|done].
    intros [= Heq]. lia.
Qed.

(** X12.  Only the current model ever leaves the scene.  A model that is
    in the scene without being the current one, as the loser of two
    overlapping loads is, stays in the scene whatever happens next, and
    never becomes the current one again. *)
Theorem stale_model_stays (st : State) (ref : nat) (es : list Event) :
  reachable st → Model ref ∈ scene st → currentModel st ≠ Some ref →
  Model ref ∈ scene (run es st) ∧ currentModel (run es st) ≠ Some ref.
Proof.
  revert st. induction es as [|e es IH]; intros st Hst Hin Hne; [done|].
  destruct (step_keeps_stale st e ref Hst Hin Hne) as [Hin' Hne'].
  simpl. apply IH; [by apply reachable_step|done..].
Qed.

Lemma stale_model_stays_witness :
  reachable bothLoaded ∧ Model 1 ∈ scene bothLoaded
  ∧ currentModel bothLoaded ≠ Some 1
  ∧ Model 1 ∈ scene (run [SelectModel "Regular Hand"; LoadSucceeds 0 identity;
                          SelectModel "Skeleton Hand"; LoadSucceeds 0 identity]
                       bothLoaded).
Proof.
  assert (scene bothLoaded
          = [AmbientLight; DirectionalLight; Stage; GridHelper; AxesHelper;
             Model 1; Model 2]) as Hsc by (by vm_compute).
  assert (Model 1 ∈ scene bothLoaded) as Hin
    by (rewrite Hsc; do 5 apply list_elem_of_further; apply list_elem_of_here).
  assert (currentModel bothLoaded ≠ Some 1) as Hne by (by vm_compute).
  split; [exact reachable_bothLoaded|]. split; [exact Hin|].
  split; [exact Hne|].
  exact (proj1 (stale_model_stays bothLoaded 1 _ reachable_bothLoaded Hin Hne)).
Defined.

Lemma modelsInScene_none l :
  (∀ ref, Model ref ∉ l) →
  omap (λ c, match c with Model ref => Some ref | _ => None end) l = [].
Proof.
  induction l as [|c l IH]; intros Hl; csimpl; [done|].
  destruct c as [| | | | |ref];
    try (apply IH; intros ref Href; apply (Hl ref), list_elem_of_further, Href).
  destruct (Hl ref). apply list_elem_of_here.
Qed.

(** X13.  When the scene holds no model but the current one, choosing a
    model and having that load succeed, before any other load does,
    leaves exactly one model in the scene: the new one. *)
Theorem clean_switch (st : State) (old : nat) (X : string) (root : Transform) :
  reachable st → currentModel st = Some old →
  (∀ ref, ref ∈ modelsInScene st → ref = old) →
  X ∈ keys modelFiles →
  modelsInScene (run [SelectModel X; LoadSucceeds (length (loading st)) root] st)
  = [length (objects st)].
Proof.
  intros Hst%reachable_wf Hcm Honly HX. simpl.
  destruct (selectModel_displaying st old X Hst Hcm HX)
    as (Ho & _ & _ & _ & Hsc & Hl & _).
  assert (loading (selectModel X st) !! length (loading st)
          = Some (get X modelFiles)) as Hk by (rewrite Hl; apply lookup_last).
  destruct (loadSucceeds_catalog _ root X _ HX Hk)
    as (_ & _ & _ & _ & _ & _ & Hsc2 & _).
  unfold modelsInScene. rewrite Hsc2, Hsc, Ho, omap_app; simpl.
  rewrite modelsInScene_none; [done|].
  intros ref Href%splice_out_elem.
  pose proof Href as Hin%splice_out_elem%elem_of_modelsInScene%Honly.
  subst ref. by eapply splice_out_gone, Href; apply (wf_scene st Hst).
Qed.

Lemma clean_switch_witness :
  reachable regularShown ∧ currentModel regularShown = Some 0
  ∧ (∀ ref, ref ∈ modelsInScene regularShown → ref = 0)
  ∧ "Skeleton Hand" ∈ keys modelFiles
  ∧ modelsInScene
      (run [SelectModel "Skeleton Hand"; LoadSucceeds 0 identity] regularShown)
    = [1].
Proof.
  assert (modelsInScene regularShown = [0]) as Hm by (by vm_compute).
  assert (∀ ref, ref ∈ modelsInScene regularShown → ref = 0) as Honly
    by (rewrite Hm; by intros ref ->%list_elem_of_singleton).
  assert (currentModel regularShown = Some 0) as Hcm by (by vm_compute).
  split; [exact reachable_regularShown|]. split; [exact Hcm|].
  split; [exact Honly|]. split; [exact skeleton_hand_in_catalog|].
  exact (clean_switch regularShown 0 "Skeleton Hand" identity
           reachable_regularShown Hcm Honly skeleton_hand_in_catalog).
Defined.

(** ** The heap of objects *)

(** X14.  In every reachable state the current model is the object the
    loader handed over last, and the panel [gui] refers to is the one
    built last: a load that succeeds always takes over, and each builds
    exactly one panel. *)
Theorem current_model_is_latest_load (st : State) :
  reachable st →
  currentModel st = lastIndex (objects st)
  ∧ gui st = lastIndex (panels st)
  ∧ length (panels st) = length (objects st).
Proof. apply reachable_latest. Qed.

Lemma current_model_is_latest_load_witness :
  reachable bothLoaded
  ∧ length (objects bothLoaded) = 3
  ∧ currentModel bothLoaded = lastIndex (objects bothLoaded)
  ∧ currentModel bothLoaded = Some 2.
Proof.
  split; [exact reachable_bothLoaded|]. split; [by vm_compute|].
  split; [|by vm_compute].
  exact (proj1 (current_model_is_latest_load bothLoaded reachable_bothLoaded)).
Defined.

(** X15.  No event frees an object or changes which asset it is, and no
    event writes to the transform of an object other than the current
    model: a model that has been replaced keeps the transform it had. *)
Theorem only_current_model_changes (st : State) (e : Event) (i : nat)
    (o : Object3D) :
  reachable st → objects st !! i = Some o →
  ∃ o', objects (step st e) !! i = Some o'
    ∧ asset o' = asset o
    ∧ (currentModel st ≠ Some i → o' = o).
Proof.
  intros Hst%reachable_wf Ho. by_step_cases st e Hst; [eauto|..].
  - intros cm Hcm Hu. destruct (uc_objects _ _ _ Hu) as [f ->].
    rewrite list_lookup_alter, Hcm. case_decide as Hi.
    + subst i. rewrite Ho; simpl. eexists. split_and!; [done..|congruence].
    + eauto.
  - eauto.
  - intros k root name HX Hk.
    destruct (loadSucceeds_catalog k root name st HX Hk)
      as (ps & pr & _ & _ & -> & _).
    exists o. split_and!; try done.
    rewrite lookup_app_l; [done|]. by apply lookup_lt_Some in Ho.
Qed.

Lemma only_current_model_changes_witness :
  reachable bothLoaded
  ∧ (∃ o, objects bothLoaded !! 1 = Some o
          ∧ objects (step bothLoaded (EditScale 3)) !! 1 = Some o)
  ∧ currentModel bothLoaded ≠ Some 1.
Proof.
  assert (∃ o, objects bothLoaded !! 1 = Some o) as [o Ho]
    by (eexists; vm_compute; reflexivity).
  assert (currentModel bothLoaded ≠ Some 1) as Hne by (by vm_compute).
  split; [exact reachable_bothLoaded|]. split; [|exact Hne].
  exists o. split; [exact Ho|].
  destruct (only_current_model_changes bothLoaded (EditScale 3) 1 o
              reachable_bothLoaded Ho) as (o' & Ho' & _ & Hsame).
  rewrite Ho'. f_equal. exact (Hsame Hne).
Defined.

(** ** The panel after a load *)

(** X16.  Whenever a load of a model [m] of the asset catalog succeeds,
    in whatever state, the panel there was is destroyed and the panel on
    the page is a new one built for [m]: its model selector shows [m] and
    offers the models of [modelFiles], its view selector shows "Default"
    and offers the presets of [m], and its seven number fields are bound
    to the new object. *)
Theorem panel_after_load (st : State) (k : nat) (root : Transform) (m : string) :
  m ∈ keys modelFiles →
  loading st !! k = Some (get m modelFiles) →
  ∃ presets,
    get m modelPresets = Some presets
    ∧ panel (step st (LoadSucceeds k root))
      = Some (length (panels st),
              {| title := "Model Controls";
                 controllers := built (length (objects st)) (Some m) "Default"
                                  m presets;
                 destroyed := false |})
    ∧ currentModel (step st (LoadSucceeds k root)) = Some (length (objects st))
    ∧ ∀ g p, gui st = Some g → panels st !! g = Some p →
        panels (step st (LoadSucceeds k root)) !! g
        = Some {| title := title p; controllers := []; destroyed := true |}.
Proof.
  intros Hin Hk. simpl.
  destruct (loadSucceeds_catalog k root m st Hin Hk)
    as (presets & pr & Hps & _ & _ & Hcm & _ & Hg & Hp & _).
  exists presets. split_and!; try done.
  - unfold panel. rewrite Hg, Hp; simpl.
    by rewrite <- length_destroyOld, lookup_last.
  - intros g p Hg' Hpg. rewrite Hp.
    rewrite lookup_app_l
      by (rewrite length_destroyOld; by apply lookup_lt_Some in Hpg).
    unfold destroyOld. by rewrite Hg', list_lookup_alter_eq, Hpg.
Qed.

Lemma panel_after_load_witness :
  "Skeleton Hand" ∈ keys modelFiles
  ∧ loading (step regularShown (SelectModel "Skeleton Hand")) !! 0
    = Some (get "Skeleton Hand" modelFiles)
  ∧ viewSelector <$>
      (snd <$> panel (step (step regularShown (SelectModel "Skeleton Hand"))
                        (LoadSucceeds 0 identity)))
    = Some (Some (["Default"; "Palm View"; "Wrist View"], "Skeleton Hand")).
Proof.
  assert (loading (step regularShown (SelectModel "Skeleton Hand")) !! 0
          = Some (get "Skeleton Hand" modelFiles)) as Hk by (by vm_compute).
  split; [exact skeleton_hand_in_catalog|]. split; [exact Hk|].
  destruct (panel_after_load (step regularShown (SelectModel "Skeleton Hand"))
              0 identity "Skeleton Hand" skeleton_hand_in_catalog Hk)
    as (presets & Hps & -> & _).
  vm_compute in Hps. by injection Hps as <-.
Defined.

(** ** Uniform scale *)

(** Every preset of [modelPresets] scales alike along the three axes. *)
Lemma catalog_uniform name presets presetName preset :
  get name modelPresets = Some presets →
  get presetName presets = Some preset →
  uniform (scale preset).
Proof.
  intros Hps Hp. unfold get, modelPresets in Hps; simpl in Hps.
  repeat (case_match; simplify_eq);
    unfold get in Hp; simpl in Hp;
    repeat (case_match; simplify_eq); by split.
Qed.

Lemma selectModel_keeps_displayed st X :
  wf st → displayed (selectModel X st) = displayed st.
Proof.
  intros Hst. destruct (currentModel st) as [cm|] eqn:Hcm.
  - destruct (wf_built st cm Hst Hcm) as (g & m & vw & n & ps & Hg & _ & Hp).
    unfold selectModel, panel. rewrite Hg; simpl. rewrite Hp; simpl.
    case_bool_decide; [|done].
    unfold displayed, loadModel; simpl. rewrite Hcm; simpl. by rewrite Hcm.
  - unfold selectModel. by rewrite (wf_empty st Hst Hcm).
Qed.

Lemma selectPreset_displayed st o presetName :
  wf st → displayed st = Some o →
  displayed (selectPreset presetName st) = Some o
  ∨ ∃ name presets preset,
      get name modelPresets = Some presets
      ∧ get presetName presets = Some preset
      ∧ displayed (selectPreset presetName st)
        = Some {| asset := asset o; transform := preset |}.
Proof.
  intros Hst Hd. unfold displayed in Hd.
  destruct (currentModel st) as [cm|] eqn:Hcm; [simpl in Hd|done].
  destruct (wf_built st cm Hst Hcm) as (g & m & v & n & ps & Hg & Hn & Hp).
  unfold selectPreset, panel. rewrite Hg; simpl. rewrite Hp; simpl.
  case_bool_decide as Hin.
  - right. apply get_keys in Hin as [preset Hpreset].
    exists n, ps, preset. split_and!; [done..|].
    erewrite applyPreset_hit; [|done|by unfold lookupPreset; simpl; rewrite Hn].
    unfold displayed; simpl. rewrite Hcm; simpl.
    rewrite list_lookup_alter_eq, Hd; simpl. by rewrite place_eq.
  - left. unfold displayed. by rewrite Hcm.
Qed.

(** X17.  The displayed model is never stretched: in every reachable
    state its three scale components are one number.  Every preset of
    [modelPresets] is uniform, the scale field writes one value to all
    three, and nothing else writes to the scale, whatever scale the asset
    came with. *)
Theorem scale_stays_uniform (st : State) (o : Object3D) :
  reachable st → displayed st = Some o → uniform (scale (transform o)).
Proof.
  intros Hst. revert o. revert st Hst.
  apply (reachable_induction
           (λ st, ∀ o, displayed st = Some o → uniform (scale (transform o))));
    [done|].
  intros st e Hst%reachable_wf IH o'.
  destruct e as [k root|k error|X|presetName|k v|k v|v]; simpl.
  - destruct (loadSucceeds_cases k root st Hst) as [-> | (name & Hin & Hk)];
      [apply IH|].
    destruct (displayed_loadSucceeds k root name st Hin Hk)
      as (preset & Hp & -> & _).
    intros [= <-]. simpl. unfold lookupPreset in Hp; simpl in Hp.
    destruct (get name modelPresets) as [ps|] eqn:Hps; [|done].
    by eapply catalog_uniform.
  - destruct (loadFails_cases k error st) as [-> | [_ ->]]; apply IH.
  - rewrite selectModel_keeps_displayed by done. apply IH.
  - intros Hd.
    destruct (displayed st) as [o|] eqn:Ho.
    + destruct (selectPreset_displayed st o presetName Hst Ho)
        as [Hsame | (n & ps & preset & Hn & Hp & Hnew)].
      * apply IH. congruence.
      * rewrite Hnew in Hd. injection Hd as <-. by eapply catalog_uniform.
    + unfold displayed in Ho.
      destruct (currentModel st) as [cm|] eqn:Hcm; simpl in Ho.
      * pose proof (wf_current st Hst cm Hcm) as [? ?]%lookup_lt_is_Some.
        congruence.
      * unfold selectPreset in Hd. rewrite (wf_empty st Hst Hcm) in Hd.
        unfold displayed in Hd. by rewrite Hcm in Hd.
  - destruct (currentModel st) as [cm|] eqn:Hcm.
    + rewrite (editPosition_change st cm) by done.
      unfold displayed; simpl. rewrite Hcm; simpl.
      rewrite list_lookup_alter_eq.
      destruct (objects st !! cm) as [o|] eqn:Ho; [|done].
      intros [= <-]. simpl. apply IH. unfold displayed. by rewrite Hcm.
    + unfold editPosition. rewrite (wf_empty st Hst Hcm). apply IH.
  - destruct (currentModel st) as [cm|] eqn:Hcm.
    + rewrite (editRotation_change st cm) by done.
      unfold displayed; simpl. rewrite Hcm; simpl.
      rewrite list_lookup_alter_eq.
      destruct (objects st !! cm) as [o|] eqn:Ho; [|done].
      intros [= <-]. simpl. apply IH. unfold displayed. by rewrite Hcm.
    + unfold editRotation. rewrite (wf_empty st Hst Hcm). apply IH.
  - destruct (currentModel st) as [cm|] eqn:Hcm.
    + rewrite (editScale_change st cm) by done.
      unfold displayed; simpl. rewrite Hcm; simpl.
      rewrite list_lookup_alter_eq.
      destruct (objects st !! cm) as [o|] eqn:Ho; [|done].
      by intros [= <-].
    + unfold editScale. rewrite (wf_empty st Hst Hcm). apply IH.
Qed.

Lemma scale_stays_uniform_witness :
  reachable bothLoaded
  ∧ (∃ o, displayed bothLoaded = Some o
          ∧ scale (transform o) = vec3 1.1 1.1 1.1
          ∧ uniform (scale (transform o))).
Proof.
  assert (∃ o, displayed bothLoaded = Some o
               ∧ scale (transform o) = vec3 1.1 1.1 1.1) as (o & Ho & Hs)
    by (eexists; split; vm_compute; reflexivity).
  split; [exact reachable_bothLoaded|].
  exists o. split; [exact Ho|]. split; [exact Hs|].
  exact (scale_stays_uniform bothLoaded o reachable_bothLoaded Ho).
Defined.
